(** * gps_node: the GLL capture loop of the NEO-7M GPS ROS node

    A shallow embedding of [src/gps_node.cpp]:
    - [ConvertDMSToDD] and [ProcessGPSData], with C's [float] modelled as
      IEEE-754 binary32 (round to nearest even) through the Standard
      Library's [SpecFloat] at precision 24 and maximal exponent 128;
    - the body of [main]'s polling loop as a state machine over the two
      globals and [main]'s locals, one transition per received character,
      with the diagnostics and publications it produces as a trace.

    Characters are the [int] values C promotes a [char] to, so the
    development does not depend on the signedness of [char].  Every
    [float] operation is rounded to binary32 on its own, as on the
    Raspberry Pi the node is written for; the one product of the code,
    [dir * deg], is exact for the operands that occur, so a fused
    multiply-add would give the same sums. *)

From Stdlib Require Import ZArith Lia String Ascii.
From Stdlib Require Import Floats.SpecFloat.
From stdpp Require Import base list.

Open Scope Z_scope.

(** ** binary32 arithmetic *)

Definition f32 : Type := spec_float.

Module F32.

Definition prec : Z := 24.
Definition emax : Z := 128.

(** Conversion [(float)i] of an [int]. *)
Definition of_int (i : Z) : f32 := binary_normalize prec emax i 0 false.

Definition add : f32 -> f32 -> f32 := SFadd prec emax.
Definition mul : f32 -> f32 -> f32 := SFmul prec emax.
Definition div : f32 -> f32 -> f32 := SFdiv prec emax.

(** C's [x == y] on floats: the two zeros are equal, a NaN equals nothing. *)
Definition eqb : f32 -> f32 -> bool := SFeqb.

(** The literal [0] of [latitude==0], converted to [float]. *)
Definition zero : f32 := of_int 0.

(** [n/d] for small integers, used to write expected values. *)
Definition ratio (n d : Z) : f32 := div (of_int n) (of_int d).

End F32.

(** ** Characters *)

Definition chr (a : ascii) : Z := Z.of_N (N_of_ascii a).

Definition ch_L : Z := chr "L".
Definition ch_V : Z := chr "V".
Definition ch_N : Z := chr "N".
Definition ch_E : Z := chr "E".
Definition ch_0 : Z := chr "0".
Definition ch_CR : Z := chr "013".

Definition bytes_of (s : string) : list Z := chr <$> list_ascii_of_string s.

(** [c] is one of the ASCII digits ['0'..'9']. *)
Definition is_digit (c : Z) : bool := (ch_0 <=? c) && (c <=? ch_0 + 9).

(** ** DEGREES-MINUTES-SECONDS TO DECIMAL DEGREES (lines 37-40)

    [float DecDeg = dir * ((float)deg) + ((float)min/60) + (sec/3600);]
    C parses this as [((dir * deg) + (min / 60)) + (sec / 3600)]; the
    integer operands [dir], [60] and [3600] are converted to [float]. *)

Definition ConvertDMSToDD (deg min : Z) (sec : f32) (dir : Z) : f32 :=
  F32.add
    (F32.add (F32.mul (F32.of_int dir) (F32.of_int deg))
             (F32.div (F32.of_int min) (F32.of_int 60)))
    (F32.div sec (F32.of_int 3600)).

(** The conversion law as the specification words it: the sign multiplies
    the whole sum [deg + min/60 + sec/3600].  Only used to compare with
    [ConvertDMSToDD]. *)
Definition spec_ConvertDMSToDD (deg min : Z) (sec : f32) (dir : Z) : f32 :=
  F32.mul (F32.of_int dir)
    (F32.add
       (F32.add (F32.of_int deg) (F32.div (F32.of_int min) (F32.of_int 60)))
       (F32.div sec (F32.of_int 3600))).

(** ** DATA PARSING FUNCTION (lines 48-81)

    [GPS_data_array] is the 40-cell capture array; [buf !!! i] is
    [GPS_data_array[i]].  All the offsets read are below 27.  The integer
    arithmetic is on [int]; with operands in the range of a [char] it
    cannot overflow, so it is plain arithmetic on [Z]. *)

Section Parsing.

Variable GPS_data_array : list Z.

(** [GPS_data_array[i]-'0'] *)
Definition digit_at (i : nat) : Z := GPS_data_array !!! i - ch_0.

Definition lat_deg : Z := digit_at 1 * 10 + digit_at 2.
Definition lat_min : Z := digit_at 3 * 10 + digit_at 4.

(** [int + int + float + float + float], associated to the left: the
    first sum is an [int] addition, converted once. *)
Definition lat_sec : f32 :=
  F32.add
    (F32.add
       (F32.add (F32.of_int (digit_at 6 * 10 + digit_at 7))
                (F32.div (F32.of_int (digit_at 8)) (F32.of_int 10)))
       (F32.div (F32.of_int (digit_at 9)) (F32.of_int 100)))
    (F32.div (F32.of_int (digit_at 10)) (F32.of_int 1000)).

Definition lat_dir : Z := if GPS_data_array !!! 12%nat =? ch_N then 1 else -1.

Definition long_deg : Z := digit_at 14 * 100 + digit_at 15 * 10 + digit_at 16.
Definition long_min : Z := digit_at 17 * 10 + digit_at 18.

Definition long_sec : f32 :=
  F32.add
    (F32.add
       (F32.add (F32.of_int (digit_at 20 * 10 + digit_at 21))
                (F32.div (F32.of_int (digit_at 22)) (F32.of_int 10)))
       (F32.div (F32.of_int (digit_at 23)) (F32.of_int 100)))
    (F32.div (F32.of_int (digit_at 24)) (F32.of_int 1000)).

Definition long_dir : Z := if GPS_data_array !!! 26%nat =? ch_E then 1 else -1.

(** The new values of the globals [latitude] and [longitude]. *)
Definition ProcessGPSData : f32 * f32 :=
  (ConvertDMSToDD lat_deg lat_min lat_sec lat_dir,
   ConvertDMSToDD long_deg long_min long_sec long_dir).

End Parsing.

(** The offsets [ProcessGPSData] reads as digits. *)
Definition digit_positions : list nat :=
  [1; 2; 3; 4; 6; 7; 8; 9; 10; 14; 15; 16; 17; 18; 20; 21; 22; 23; 24]%nat.

(** ** MAIN FUNCTION: the polling loop (lines 119-171) *)

(** The globals and the locals of [main] that live across iterations.
    [unsigned int]s are never negative; the only values the code stores in
    the two flags are 0 and 1, and [array_index] is only incremented after
    a store below [capacity], so no wrap-around is reachable before the
    out-of-bounds store. *)
Record state : Type := State {
  latitude : f32;
  longitude : f32;
  enable_data_capture : Z;
  data_is_valid : Z;
  array_index : Z;
  data_capture_array : list Z
}.

(** [char data_capture_array[40];] *)
Definition capacity : Z := 40.

(** What a cycle lets the outside see. *)
Inductive event : Type :=
  | CannotLocate                    (* ROS_INFO("GPS module cannot locate position.") *)
  | Publish (lat lon : f32).        (* ROS_INFO("Latitude: ...") and sensor_pub.publish(msg) *)

(** The outcome of running part of the loop: the state reached and the
    events so far, either after normal execution or at the point where the
    code stores to [data_capture_array[array_index]] with [array_index]
    outside the array, after which C gives the program no meaning. *)
Inductive exec : Type :=
  | Normal (s : state) (evs : list event)
  | BufferOverrun (s : state) (evs : list event).

Definition events_of (r : exec) : list event :=
  match r with Normal _ evs | BufferOverrun _ evs => evs end.

(** Sequencing: continue from a normal outcome, and stay at an overrun. *)
Definition andThen (r : exec) (k : state -> exec) : exec :=
  match r with
  | Normal s evs =>
      match k s with
      | Normal s' evs' => Normal s' (evs ++ evs')
      | BufferOverrun s' evs' => BufferOverrun s' (evs ++ evs')
      end
  | BufferOverrun s evs => BufferOverrun s evs
  end.

Notation "r >>> k" := (andThen r k) (at level 50, left associativity).

Definition set_valid (v : Z) (s : state) : state :=
  State (latitude s) (longitude s) (enable_data_capture s) v
        (array_index s) (data_capture_array s).

Definition set_fix (p : f32 * f32) (s : state) : state :=
  State (fst p) (snd p) (enable_data_capture s) (data_is_valid s)
        (array_index s) (data_capture_array s).

Definition set_capture (e : Z) (s : state) : state :=
  State (latitude s) (longitude s) e (data_is_valid s)
        (array_index s) (data_capture_array s).

(** Line 127-131: an ['L'] arms the capture. *)
Definition start_capture (s : state) : state :=
  State (latitude s) (longitude s) 1 1 0 (data_capture_array s).

(** Lines 147-148: [data_capture_array[array_index] = uartChar; array_index++;]
    The source compares [array_index] with nothing, so an index outside
    the array is a store outside the array. *)
Definition store (uartChar : Z) (s : state) : exec :=
  if (0 <=? array_index s) && (array_index s <? capacity) then
    Normal (State (latitude s) (longitude s) (enable_data_capture s)
                  (data_is_valid s) (array_index s + 1)
                  (<[Z.to_nat (array_index s) := uartChar]> (data_capture_array s)))
           []
  else BufferOverrun s [].

(** Lines 125-152: one received character. *)
Definition on_char (s : state) (uartChar : Z) : exec :=
  if uartChar =? ch_L then Normal (start_capture s) []
  else if enable_data_capture s =? 0 then Normal s []
  else if uartChar =? ch_CR then
    let s1 := set_capture 0 s in
    if data_is_valid s1 =? 0 then Normal s1 [CannotLocate]
    else Normal (set_fix (ProcessGPSData (data_capture_array s1)) s1) []
  else if uartChar =? ch_V then store uartChar (set_valid 0 s)
  else store uartChar s.

(** The characters the inner [while(1)] reads while [serialDataAvail]. *)
Fixpoint feed (s : state) (bytes : list Z) : exec :=
  match bytes with
  | [] => Normal s []
  | c :: rest => on_char s c >>> (fun s' => feed s' rest)
  end.

(** The test [(latitude==0)&&(longitude==0)] of line 155. *)
Definition both_zero (lat lon : f32) : bool :=
  F32.eqb lat F32.zero && F32.eqb lon F32.zero.

(** Lines 154-159: no data available. *)
Definition no_data (s : state) : state :=
  if both_zero (latitude s) (longitude s) then set_valid 0 s else s.

(** Lines 163-168. *)
Definition publish (s : state) : list event :=
  if data_is_valid s =? 0 then [] else [Publish (latitude s) (longitude s)].

(** One iteration of [while (ros::ok())]: [bytes] are the characters the
    serial port delivers before it first reports no data. *)
Definition cycle (s : state) (bytes : list Z) : exec :=
  feed s bytes >>> (fun s' => Normal (no_data s') (publish (no_data s'))).

Fixpoint run (s : state) (cycles : list (list Z)) : exec :=
  match cycles with
  | [] => Normal s []
  | bytes :: rest => cycle s bytes >>> (fun s' => run s' rest)
  end.

(** The state when the loop is entered: the globals are zero-initialised,
    [enable_data_capture] is 0, and [data_is_valid], [array_index] and the
    array hold whatever the stack held. *)
Definition initial (valid index : Z) (arr : list Z) : state :=
  State F32.zero F32.zero 0 valid index arr.

(** The publications of a trace. *)
Definition publications (evs : list event) : list (f32 * f32) :=
  omap (fun e => match e with Publish a b => Some (a, b) | CannotLocate => None end) evs.

(** ** Shapes of input *)

(** Bytes that neither start nor end a capture. *)
Definition plain (body : list Z) : Prop := (ch_L ∉ body) ∧ (ch_CR ∉ body).

(** A sentence as the loop frames it: the ['L'] that arms the capture, a
    body, and the carriage return. *)
Definition sentence (body : list Z) : list Z := ch_L :: body ++ [ch_CR].

(** The capture array after [body] has been stored from offset 0. *)
Definition overlay (body arr : list Z) : list Z := body ++ drop (length body) arr.

(** The state after storing [body] from the current index. *)
Definition capture (body : list Z) (s : state) : state :=
  let i := Z.to_nat (array_index s) in
  State (latitude s) (longitude s) (enable_data_capture s)
        (if bool_decide (ch_V ∈ body) then 0 else data_is_valid s)
        (array_index s + Z.of_nat (length body))
        (take i (data_capture_array s) ++ body
           ++ drop (i + length body) (data_capture_array s)).

(** The state after a whole sentence with body [body] has been read. *)
Definition resolve (body : list Z) (s : state) : state :=
  let buf := overlay body (data_capture_array s) in
  let n := Z.of_nat (length body) in
  if bool_decide (ch_V ∈ body)
  then State (latitude s) (longitude s) 0 0 n buf
  else State (fst (ProcessGPSData buf)) (snd (ProcessGPSData buf)) 0 1 n buf.

(** What one cycle reads when the module has no position: sentences with a
    ['V'] in the body, each possibly preceded by characters other than
    ['L'] (the line feed, the talker prefix) and by further ['L']s (the
    first one of [GLL]), and followed by characters other than ['L'].  The
    empty burst is the cycle in which no character arrives. *)
Inductive not_fixed_burst : list Z -> Prop :=
  | nfb_noise bytes : ch_L ∉ bytes -> not_fixed_burst bytes
  | nfb_sentence noise k body rest :
      ch_L ∉ noise -> plain body -> ch_V ∈ body -> not_fixed_burst rest ->
      not_fixed_burst (noise ++ replicate k ch_L ++ sentence body ++ rest).

(** A scan of the characters alone.  [armed] tells whether an ['L'] has
    opened a capture that no carriage return has closed yet, [seenV]
    whether a ['V'] came since that ['L']; the result tells whether every
    carriage return that closes a capture comes after a ['V']. *)
Fixpoint every_sentence_has_V (armed seenV : bool) (bytes : list Z) : bool :=
  match bytes with
  | [] => true
  | c :: rest =>
      if c =? ch_L then every_sentence_has_V true false rest
      else if negb armed then every_sentence_has_V false seenV rest
      else if c =? ch_CR then seenV && every_sentence_has_V false seenV rest
      else every_sentence_has_V true (seenV || (c =? ch_V)) rest
  end.

(** No position has been stored so far; [armed] and [seenV] are as in the
    scan. *)
Definition before_fix (armed seenV : bool) (s : state) : Prop :=
  latitude s = F32.zero /\ longitude s = F32.zero
  /\ (enable_data_capture s <> 0 <-> armed = true)
  /\ (armed = true -> seenV = true -> data_is_valid s = 0).

(** ** Sample inputs *)

(** An array of NUL characters, for the indeterminate initial content. *)
Definition blank : list Z := replicate 40 0.

(** A GLL sentence as the NEO-7M sends it (NMEA 2.3 and later: the time
    has two decimals and a mode field follows the status). *)
Definition neo7m_gll : list Z :=
  bytes_of "$GPGLL,4717.11364,N,00833.91565,E,092321.00,A,A*60" ++ [ch_CR; 10].

(** Its body after the second ['L']: 44 characters. *)
Definition neo7m_body : list Z :=
  bytes_of ",4717.11364,N,00833.91565,E,092321.00,A,A*60".

(** The loop after a fix at (47.5, 8.5) has been decoded and published. *)
Definition after_fix : state :=
  State (F32.ratio 95 2) (F32.ratio 17 2) 0 1 39 blank.

(** A sentence with the letter A where the second latitude degree digit
    should be. *)
Definition letter_in_degrees : list Z :=
  bytes_of ",4A17.00000,N,00830.00000,E,092321,A*60".

(** The array once that sentence has been captured over [blank]. *)
Definition letter_buf : list Z := overlay letter_in_degrees blank.

(** A sentence with X and Q in the two hemisphere fields. *)
Definition strange_hemispheres : list Z :=
  bytes_of ",4730.00000,X,00830.00000,Q,092321,A*60".

(** A complete sentence, and one cut after the latitude degrees. *)
Definition complete_sentence : list Z :=
  bytes_of ",4730.00000,N,00830.00000,E,092321,A*60".


(** The sentence the module sends while it has no position. *)
Definition no_position : list Z := bytes_of ",,,,,,V,N*64".

(** The not-fixed sentence as it arrives, talker prefix and line feed
    included. *)
Definition gll_no_position : list Z :=
  bytes_of "$GPG" ++ replicate 1 ch_L ++ sentence no_position ++ [10].

(** Three not-fixed sentences over six cycles: nothing arrives in the
    first and the fourth, the first sentence is cut after its third comma,
    the last two arrive together. *)
Definition not_fixed_cycles : list (list Z) :=
  [ [];
    bytes_of "$GPGLL,,,";
    bytes_of ",,,V,N*64" ++ [ch_CR; 10];
    [];
    gll_no_position ++ gll_no_position;
    [] ].

(** A fix at exactly 0 degrees latitude, 0 degrees longitude. *)
Definition null_island : list Z :=
  bytes_of ",0000.00000,N,00000.00000,E,092321,A*60".

(** A second complete sentence, at (48.5, 9). *)
Definition later_sentence : list Z :=
  bytes_of ",4830.00000,N,00900.00000,E,092322,A*61".

(** Two sentences as they arrive back to back, and the second one alone. *)
Definition two_sentences : list Z :=
  bytes_of "$GPGL" ++ sentence complete_sentence ++ [10]
    ++ bytes_of "$GPGL" ++ sentence later_sentence ++ [10].

Definition second_alone : list Z :=
  bytes_of "$GPGL" ++ sentence later_sentence ++ [10].

(** ** Further shapes and encodings *)

(** The offsets [ProcessGPSData] reads at all: the digits and the two
    hemisphere letters. *)
Definition read_positions : list nat := digit_positions ++ [12; 26]%nat.

(** A scan of the characters alone: never more than [capacity] characters
    in a row without an ['L'] or a carriage return.  [cur] counts the
    characters of the block under way. *)
Fixpoint blocks_fit (cur : Z) (bytes : list Z) : bool :=
  match bytes with
  | [] => true
  | c :: rest =>
      if (c =? ch_L) || (c =? ch_CR) then blocks_fit 0 rest
      else (cur <? capacity) && blocks_fit (cur + 1) rest
  end.

(** What the loop keeps true of its variables. *)
Definition well_formed (s : state) : Prop :=
  length (data_capture_array s) = Z.to_nat capacity
  /\ (enable_data_capture s = 0 \/ enable_data_capture s = 1)
  /\ (enable_data_capture s <> 0 -> 0 <= array_index s <= capacity)
  /\ (data_is_valid s = 0 \/ data_is_valid s = 1
      \/ (enable_data_capture s = 0
          /\ both_zero (latitude s) (longitude s) = true)).

(** Two states that differ at most in variables the loop will write
    before it reads them: [array_index] while no capture is under way, and
    [data_is_valid] while moreover both coordinates are zero. *)
Definition alike (s1 s2 : state) : Prop :=
  latitude s1 = latitude s2 /\ longitude s1 = longitude s2
  /\ enable_data_capture s1 = enable_data_capture s2
  /\ data_capture_array s1 = data_capture_array s2
  /\ (enable_data_capture s1 <> 0 ->
      array_index s1 = array_index s2 /\ data_is_valid s1 = data_is_valid s2)
  /\ (enable_data_capture s1 = 0 ->
      data_is_valid s1 = data_is_valid s2
      \/ both_zero (latitude s1) (longitude s1) = true).

(** Two outcomes of the same kind, with the same events, in states that
    are [alike] when the loop goes on. *)
Definition alike_exec (r1 r2 : exec) : Prop :=
  match r1, r2 with
  | Normal s1 evs1, Normal s2 evs2 => alike s1 s2 /\ evs1 = evs2
  | BufferOverrun _ evs1, BufferOverrun _ evs2 => evs1 = evs2
  | _, _ => False
  end.

(** The decimal digits of a number below 100, and of one below 1000, as
    the module writes them. *)
Definition two_digits (n : Z) : list Z := [ch_0 + n / 10; ch_0 + n mod 10].

Definition three_digits (n : Z) : list Z :=
  [ch_0 + n / 100; ch_0 + n / 10 mod 10; ch_0 + n mod 10].

(** The body of a GLL sentence with whole minutes: [ddmm.00000], the
    latitude hemisphere, [dddmm.00000], the longitude hemisphere, and
    whatever follows (time, status, checksum). *)
Definition gll_body (lat_d lat_m : Z) (north : bool)
    (lon_d lon_m : Z) (east : bool) (tail : list Z) : list Z :=
  chr "," :: two_digits lat_d ++ two_digits lat_m ++ bytes_of ".00000,"
    ++ (if north then chr "N" else chr "S") :: chr ","
    :: three_digits lon_d ++ two_digits lon_m ++ bytes_of ".00000,"
    ++ (if east then chr "E" else chr "W") :: tail.

(** What follows the longitude hemisphere in the sample sentences. *)
Definition sample_tail : list Z := bytes_of ",092321,A*60".

(** The float is the negative zero. *)
Definition is_negative_zero (x : f32) : bool :=
  match x with S754_zero true => true | _ => false end.

(** While a capture is under way the index is at most [cur], the number
    of characters since the last ['L'] or carriage return. *)
Definition index_within (cur : Z) (s : state) : Prop :=
  enable_data_capture s <> 0 -> 0 <= array_index s <= cur.

(** Two arrays in which the characters of the whole degrees, minutes and
    seconds have the same weighted sums, and the characters of the
    fractional seconds and of the hemispheres are the same. *)
Definition same_digit_sums (b1 b2 : list Z) : Prop :=
  (forall i, i ∈ [8; 9; 10; 12; 22; 23; 24; 26]%nat -> b1 !!! i = b2 !!! i)
  /\ b1 !!! 1%nat * 10 + b1 !!! 2%nat = b2 !!! 1%nat * 10 + b2 !!! 2%nat
  /\ b1 !!! 3%nat * 10 + b1 !!! 4%nat = b2 !!! 3%nat * 10 + b2 !!! 4%nat
  /\ b1 !!! 6%nat * 10 + b1 !!! 7%nat = b2 !!! 6%nat * 10 + b2 !!! 7%nat
  /\ b1 !!! 14%nat * 100 + b1 !!! 15%nat * 10 + b1 !!! 16%nat
     = b2 !!! 14%nat * 100 + b2 !!! 15%nat * 10 + b2 !!! 16%nat
  /\ b1 !!! 17%nat * 10 + b1 !!! 18%nat = b2 !!! 17%nat * 10 + b2 !!! 18%nat
  /\ b1 !!! 20%nat * 10 + b1 !!! 21%nat = b2 !!! 20%nat * 10 + b2 !!! 21%nat.

(** The sentence [letter_in_degrees] with the degrees written 57. *)
Definition digits_in_degrees : list Z :=
  bytes_of ",5717.00000,N,00830.00000,E,092321,A*60".

(** * Proofs *)

(** Closed decidable facts about concrete inputs, by evaluation. *)
Ltac decide_by_compute :=
  match goal with
  | |- ?P => apply (bool_decide_unpack P); vm_compute; exact I
  end.

(** ** Sequencing *)

Lemma andThen_Normal_nil s k : Normal s [] >>> k = k s.
Proof. unfold andThen. now destruct (k s). Qed.

Lemma andThen_Normal_ret r : r >>> (fun s => Normal s []) = r.
Proof. destruct r as [s evs|s evs]; simpl; [|done]. now rewrite app_nil_r. Qed.

Lemma andThen_assoc r k1 k2 :
  (r >>> k1) >>> k2 = r >>> (fun s => k1 s >>> k2).
Proof.
  destruct r as [s evs|s evs]; simpl; [|done].
  destruct (k1 s) as [s1 evs1|s1 evs1]; simpl; [|done].
  destruct (k2 s1) as [s2 evs2|s2 evs2]; now rewrite app_assoc.
Qed.

Lemma andThen_ext r k1 k2 : (forall s, k1 s = k2 s) -> r >>> k1 = r >>> k2.
Proof. intros H. destruct r as [s evs|s evs]; simpl; [|done]. now rewrite H. Qed.

Lemma andThen_Normal s evs k :
  Normal s evs >>> k = match k s with
                       | Normal s' evs' => Normal s' (evs ++ evs')
                       | BufferOverrun s' evs' => BufferOverrun s' (evs ++ evs')
                       end.
Proof. reflexivity. Qed.

Lemma feed_app s xs ys : feed s (xs ++ ys) = feed s xs >>> (fun s' => feed s' ys).
Proof.
  revert s. induction xs as [|c xs IH]; intros s; simpl.
  - now destruct (feed s ys).
  - rewrite andThen_assoc. apply andThen_ext. intros s'. apply IH.
Qed.

(** ** The framer *)

Lemma ch_V_not_L : (ch_V =? ch_L) = false.
Proof. reflexivity. Qed.

Lemma ch_CR_not_L : (ch_CR =? ch_L) = false.
Proof. reflexivity. Qed.

Lemma plain_cons c body :
  plain (c :: body) <-> (c =? ch_L) = false /\ (c =? ch_CR) = false /\ plain body.
Proof.
  unfold plain. rewrite !not_elem_of_cons, !Z.eqb_neq. intuition congruence.
Qed.

Lemma plain_app xs ys : plain (xs ++ ys) <-> plain xs /\ plain ys.
Proof. unfold plain. rewrite !not_elem_of_app. tauto. Qed.

(** While the capture is off, everything but an ['L'] is dropped. *)
Lemma feed_noise bytes s :
  enable_data_capture s = 0 -> ch_L ∉ bytes -> feed s bytes = Normal s [].
Proof.
  intros Hoff. induction bytes as [|c bytes IH]; intros HL; [done|].
  apply not_elem_of_cons in HL as [Hc HL].
  assert (Hc' : (c =? ch_L) = false) by (apply Z.eqb_neq; congruence).
  simpl. unfold on_char. rewrite Hc', Hoff. simpl. now rewrite IH.
Qed.

(** A store inside the array. *)
Lemma store_in_range c s :
  0 <= array_index s < capacity ->
  store c s =
  Normal (State (latitude s) (longitude s) (enable_data_capture s)
                (data_is_valid s) (array_index s + 1)
                (<[Z.to_nat (array_index s) := c]> (data_capture_array s))) [].
Proof.
  intros [H0 H1]. unfold store.
  apply Z.leb_le in H0. apply Z.ltb_lt in H1. now rewrite H0, H1.
Qed.

(** A store past the array. *)
Lemma store_overrun c s :
  capacity <= array_index s -> store c s = BufferOverrun s [].
Proof.
  intros H. unfold store. apply Z.ltb_ge in H. rewrite H.
  now rewrite andb_false_r.
Qed.

(** A character of a body, while the capture is on, is stored; a ['V']
    clears [data_is_valid] first. *)
Lemma on_char_plain c s :
  enable_data_capture s <> 0 -> (c =? ch_L) = false -> (c =? ch_CR) = false ->
  on_char s c = store c (if c =? ch_V then set_valid 0 s else s).
Proof.
  intros Hon HL HCR. apply Z.eqb_neq in Hon.
  unfold on_char. rewrite HL, Hon, HCR. now destruct (c =? ch_V).
Qed.

Lemma insert_segment (arr : list Z) (i : nat) c rest :
  (i < length arr)%nat ->
  take (S i) (<[i := c]> arr) ++ rest ++ drop (S i + length rest) (<[i := c]> arr)
  = take i arr ++ (c :: rest) ++ drop (i + length (c :: rest)) arr.
Proof.
  intros Hi.
  rewrite (take_S_r _ i c) by now apply list_lookup_insert_eq.
  rewrite take_insert_ge by lia. rewrite drop_insert_lt by lia.
  rewrite <- app_assoc. simpl.
  now replace (i + S (length rest))%nat with (S (i + length rest)) by lia.
Qed.

(** A body that fits is stored from the current index on. *)
Lemma feed_body body : forall s,
  enable_data_capture s <> 0 -> plain body ->
  0 <= array_index s -> array_index s + Z.of_nat (length body) <= capacity ->
  length (data_capture_array s) = Z.to_nat capacity ->
  feed s body = Normal (capture body s) [].
Proof.
  induction body as [|c body IH]; intros s Hon Hplain H0 Hfit Hlen.
  - simpl. f_equal. destruct s as [la lo en va ix arr]. unfold capture. simpl.
    rewrite Nat.add_0_r, take_drop, Z.add_0_r. reflexivity.
  - apply plain_cons in Hplain as (HL & HCR & Hplain).
    simpl length in Hfit. simpl feed.
    rewrite on_char_plain by assumption.
    rewrite store_in_range by (destruct (c =? ch_V); simpl; lia).
    rewrite andThen_Normal_nil.
    rewrite IH; try assumption;
      try (destruct (c =? ch_V); simpl; try rewrite length_insert; lia).
    f_equal. unfold capture.
    assert (Hi : (Z.to_nat (array_index s) < length (data_capture_array s))%nat)
      by (rewrite Hlen; unfold capacity in *; lia).
    destruct (c =? ch_V) eqn:HV; simpl.
    + apply Z.eqb_eq in HV. subst c.
      rewrite (bool_decide_eq_true_2 (ch_V ∈ ch_V :: body)) by (apply elem_of_cons; now left).
      replace (Z.to_nat (array_index s + 1)) with (S (Z.to_nat (array_index s))) by lia.
      rewrite insert_segment by assumption.
      f_equal; [now destruct (bool_decide _)|lia].
    + apply Z.eqb_neq in HV.
      replace (Z.to_nat (array_index s + 1)) with (S (Z.to_nat (array_index s))) by lia.
      rewrite insert_segment by assumption.
      f_equal; [|lia].
      rewrite (bool_decide_ext (ch_V ∈ c :: body) (ch_V ∈ body)); [done|].
      rewrite elem_of_cons. intuition congruence.
Qed.

(** A body that does not fit runs into the store at index [capacity]; the
    capture is still enabled there and nothing has been reported. *)
Lemma feed_body_overrun body : forall s rest,
  enable_data_capture s <> 0 -> plain body ->
  0 <= array_index s <= capacity ->
  capacity < array_index s + Z.of_nat (length body) ->
  exists s', feed s (body ++ rest) = BufferOverrun s' []
             /\ array_index s' = capacity
             /\ enable_data_capture s' = enable_data_capture s
             /\ latitude s' = latitude s /\ longitude s' = longitude s.
Proof.
  induction body as [|c body IH]; intros s rest Hon Hplain Hix Hbig.
  - simpl in Hbig. lia.
  - apply plain_cons in Hplain as (HL & HCR & Hplain).
    simpl length in Hbig. simpl feed. rewrite on_char_plain by assumption.
    destruct (Z.eq_dec (array_index s) capacity) as [Hfull|Hroom].
    + rewrite store_overrun by (destruct (c =? ch_V); simpl; lia).
      eexists. split; [reflexivity|]. now destruct (c =? ch_V).
    + rewrite store_in_range by (destruct (c =? ch_V); simpl; lia).
      rewrite andThen_Normal_nil.
      edestruct (IH (State (latitude s) (longitude s) (enable_data_capture s)
                           (data_is_valid (if c =? ch_V then set_valid 0 s else s))
                           (array_index s + 1)
                           (<[Z.to_nat (array_index s) := c]> (data_capture_array s)))
                    rest)
        as (s' & Hfeed & Hres); simpl; try assumption; try lia.
      exists s'. split; [|exact Hres].
      rewrite <- Hfeed. now destruct (c =? ch_V).
Qed.

(** A sentence whose body fits is resolved at its carriage return: with a
    ['V'] in the body it is reported as not located, otherwise the captured
    array is parsed into the globals. *)
Lemma feed_sentence body s :
  plain body -> Z.of_nat (length body) <= capacity ->
  length (data_capture_array s) = Z.to_nat capacity ->
  feed s (sentence body)
  = Normal (resolve body s)
           (if bool_decide (ch_V ∈ body) then [CannotLocate] else []).
Proof.
  intros Hplain Hfit Hlen. unfold sentence.
  change (feed s (ch_L :: body ++ [ch_CR]))
    with (Normal (start_capture s) [] >>> (fun s' => feed s' (body ++ [ch_CR]))).
  rewrite andThen_Normal_nil, feed_app.
  rewrite (feed_body body (start_capture s))
    by (simpl; first [assumption | lia]).
  rewrite andThen_Normal_nil. cbn [feed]. rewrite andThen_Normal_ret.
  unfold on_char. rewrite ch_CR_not_L. unfold capture, resolve, overlay. simpl.
  destruct (bool_decide (ch_V ∈ body)); simpl; f_equal; f_equal; lia.
Qed.

Lemma length_overlay body arr :
  Z.of_nat (length body) <= capacity -> length arr = Z.to_nat capacity ->
  length (overlay body arr) = Z.to_nat capacity.
Proof.
  intros Hfit Hlen. unfold overlay. rewrite length_app, length_drop, Hlen. lia.
Qed.

(** ** The conversion *)

(** C1. The claim is that the hemisphere sign multiplies the whole sum
    [deg + min/60 + sec/3600].  In [ConvertDMSToDD] the sign multiplies the
    degrees only: for 33 degrees 30 minutes South the code returns -32.5,
    where the conversion law gives -33.5. *)
Theorem ConvertDMSToDD_sign_on_degrees_only :
  ConvertDMSToDD 33 30 F32.zero (-1) = F32.ratio (-65) 2
  /\ spec_ConvertDMSToDD 33 30 F32.zero (-1) = F32.ratio (-67) 2
  /\ ConvertDMSToDD 33 30 F32.zero (-1) <> spec_ConvertDMSToDD 33 30 F32.zero (-1).
Proof. repeat split; [vm_compute; reflexivity ..| vm_compute; discriminate]. Qed.

(** With the sign [+1] the two agree on the same input. *)
Example ConvertDMSToDD_north :
  ConvertDMSToDD 33 30 F32.zero 1 = spec_ConvertDMSToDD 33 30 F32.zero 1.
Proof. vm_compute. reflexivity. Qed.

(** ** The capture array has no guard *)

(** C2. The claim is that an armed sentence growing past the maximum is
    discarded and the armed flag cleared.  The loop has no such guard: once
    an ['L'] has armed the capture, a body of more than [capacity]
    characters without carriage return reaches the store
    [data_capture_array[array_index] = uartChar] with [array_index] equal
    to [capacity], one past the last cell, with the capture still enabled. *)
Theorem overlong_sentence_overruns s body rest :
  plain body -> capacity < Z.of_nat (length body) ->
  exists s',
    cycle s (ch_L :: body ++ rest) = BufferOverrun s' []
    /\ array_index s' = capacity
    /\ enable_data_capture s' = 1.
Proof.
  intros Hplain Hbig.
  destruct (feed_body_overrun body (start_capture s) rest)
    as (s' & Hfeed & Hix & Hen & _); simpl; try assumption; try lia.
  { unfold capacity; lia. }
  exists s'. split; [|now split].
  unfold cycle.
  change (feed s (ch_L :: body ++ rest))
    with (Normal (start_capture s) [] >>> (fun s' => feed s' (body ++ rest))).
  now rewrite andThen_Normal_nil, Hfeed.
Qed.

Lemma overlong_sentence_overruns_witness :
  exists s',
    cycle (initial 0 0 blank) (ch_L :: neo7m_body ++ [ch_CR; 10]) = BufferOverrun s' []
    /\ array_index s' = capacity
    /\ enable_data_capture s' = 1.
Proof.
  apply (overlong_sentence_overruns (initial 0 0 blank) neo7m_body [ch_CR; 10]).
  - split; decide_by_compute.
  - vm_compute. reflexivity.
Defined.

(** The whole sentence, from the state in which the loop starts. *)
Example neo7m_gll_overruns :
  cycle (initial 0 0 blank) neo7m_gll
  = BufferOverrun (State F32.zero F32.zero 1 1 40 (take 40 neo7m_body)) [].
Proof. vm_compute. reflexivity. Qed.

(** ** The decoder validates nothing *)

(** A well-terminated sentence without ['V'] is always parsed, whatever
    its characters are, and nothing is reported. *)
Lemma feed_fixed_sentence body s :
  plain body -> ch_V ∉ body -> Z.of_nat (length body) <= capacity ->
  length (data_capture_array s) = Z.to_nat capacity ->
  let buf := overlay body (data_capture_array s) in
  feed s (sentence body)
  = Normal (State (fst (ProcessGPSData buf)) (snd (ProcessGPSData buf))
                  0 1 (Z.of_nat (length body)) buf) [].
Proof.
  intros Hplain HV Hfit Hlen buf.
  rewrite feed_sentence by assumption. unfold resolve.
  now rewrite (bool_decide_eq_false_2 _ HV).
Qed.

(** A sentence with a ['V'] anywhere in its body is never parsed: the
    globals are left as they were and the diagnostic is printed. *)
Lemma feed_not_fixed_sentence body s :
  plain body -> ch_V ∈ body -> Z.of_nat (length body) <= capacity ->
  length (data_capture_array s) = Z.to_nat capacity ->
  feed s (sentence body)
  = Normal (State (latitude s) (longitude s) 0 0 (Z.of_nat (length body))
                  (overlay body (data_capture_array s))) [CannotLocate].
Proof.
  intros Hplain HV Hfit Hlen.
  rewrite feed_sentence by assumption. unfold resolve.
  now rewrite (bool_decide_eq_true_2 _ HV).
Qed.

Lemma is_digit_spec buf i :
  is_digit (buf !!! i) = true <-> 0 <= digit_at buf i <= 9.
Proof.
  unfold is_digit, digit_at. rewrite andb_true_iff, Z.leb_le, Z.leb_le. lia.
Qed.

(** C3, as the claim states it, fails: the sentence [letter_in_degrees]
    has a non-digit at offset 2, an expected digit position, and is decoded
    all the same; the letter counts as 17, which makes 57 degrees, and the
    resulting fix 57 degrees 17 minutes is published. *)
Lemma letter_in_degrees_is_decoded :
  (2%nat ∈ digit_positions)
  /\ is_digit (letter_in_degrees !!! 2%nat) = false
  /\ lat_deg letter_in_degrees = 57
  /\ exists s',
       cycle (initial 0 0 blank) (sentence letter_in_degrees)
       = Normal s' [Publish (F32.ratio (57 * 60 + 17) 60) (F32.ratio 17 2)].
Proof.
  split; [decide_by_compute|]. split; [reflexivity|]. split; [reflexivity|].
  eexists. vm_compute. reflexivity.
Qed.

Lemma same_digit_sums_same_fix b1 b2 :
  same_digit_sums b1 b2 -> ProcessGPSData b1 = ProcessGPSData b2.
Proof.
  intros (Hsame & H12 & H34 & H67 & H1416 & H1718 & H2021).
  assert (Hd : forall i, i ∈ [8; 9; 10; 12; 22; 23; 24; 26]%nat ->
                         digit_at b1 i = digit_at b2 i).
  { intros i Hi. unfold digit_at. now rewrite Hsame. }
  assert (Hdeg : lat_deg b1 = lat_deg b2) by (unfold lat_deg, digit_at; lia).
  assert (Hmin : lat_min b1 = lat_min b2) by (unfold lat_min, digit_at; lia).
  assert (Hsec : digit_at b1 6 * 10 + digit_at b1 7
                 = digit_at b2 6 * 10 + digit_at b2 7)
    by (unfold digit_at; lia).
  assert (Hldeg : long_deg b1 = long_deg b2) by (unfold long_deg, digit_at; lia).
  assert (Hlmin : long_min b1 = long_min b2) by (unfold long_min, digit_at; lia).
  assert (Hlsec : digit_at b1 20 * 10 + digit_at b1 21
                  = digit_at b2 20 * 10 + digit_at b2 21)
    by (unfold digit_at; lia).
  unfold ProcessGPSData, lat_sec, long_sec, lat_dir, long_dir.
  rewrite Hdeg, Hmin, Hsec, Hldeg, Hlmin, Hlsec.
  rewrite (Hsame 12%nat), (Hsame 26%nat) by decide_by_compute.
  rewrite (Hd 8%nat), (Hd 9%nat), (Hd 10%nat), (Hd 22%nat), (Hd 23%nat),
    (Hd 24%nat) by decide_by_compute.
  reflexivity.
Qed.

(** C3, amended: no digit is validated and decoding cannot fail.  A
    well-terminated sentence without ['V'] that fits the array and is read
    from its ['L'] to its carriage return in one go, within one cycle, is
    parsed and its coordinates are stored, with no diagnostic, whatever
    stands at the expected digit positions.  The characters enter the
    arithmetic by their codes: whenever another array has the same
    fractional-second and hemisphere characters and the same weighted sums
    of the whole degree, minute and second characters, it gives the same
    coordinates, so that [4A] in the degrees is decoded exactly as [57]. *)
Theorem digits_are_not_validated s body :
  plain body -> ch_V ∉ body -> Z.of_nat (length body) <= capacity ->
  length (data_capture_array s) = Z.to_nat capacity ->
  exists s',
    feed s (sentence body) = Normal s' []
    /\ (latitude s', longitude s')
       = ProcessGPSData (overlay body (data_capture_array s))
    /\ forall other,
         same_digit_sums (overlay body (data_capture_array s)) other ->
         (latitude s', longitude s') = ProcessGPSData other.
Proof.
  intros Hplain HV Hfit Hlen. eexists.
  split; [now apply feed_fixed_sentence|]. split; [reflexivity|].
  intros other Hsums.
  transitivity (ProcessGPSData (overlay body (data_capture_array s)));
    [reflexivity | now apply same_digit_sums_same_fix].
Qed.

Lemma digits_are_not_validated_witness :
  exists s',
    feed (initial 0 0 blank) (sentence letter_in_degrees) = Normal s' []
    /\ (latitude s', longitude s') = ProcessGPSData letter_buf
    /\ (latitude s', longitude s') = ProcessGPSData digits_in_degrees.
Proof.
  destruct (digits_are_not_validated (initial 0 0 blank) letter_in_degrees)
    as (s' & Hfeed & Hfix & Hsums).
  - split; decide_by_compute.
  - decide_by_compute.
  - vm_compute. discriminate.
  - reflexivity.
  - exists s'. split; [exact Hfeed|]. split; [exact Hfix|].
    apply Hsums. split.
    + intros i Hi.
      repeat (apply elem_of_cons in Hi as [->|Hi]; [reflexivity|]).
      now apply elem_of_nil in Hi.
    + repeat split; reflexivity.
Defined.

(** ** Hemispheres *)

(** C6, as the claim states it, fails: neither X nor Q is a hemisphere
    letter, yet the decoder gives both the sign -1 and the sentence is
    decoded and published as 46.5 degrees South (-47 + 0.5, see C1),
    7.5 degrees West. *)
Lemma strange_hemispheres_get_a_sign :
  strange_hemispheres !!! 12%nat = chr "X"
  /\ strange_hemispheres !!! 26%nat = chr "Q"
  /\ lat_dir strange_hemispheres = -1
  /\ long_dir strange_hemispheres = -1
  /\ exists s',
       cycle (initial 0 0 blank) (sentence strange_hemispheres)
       = Normal s' [Publish (F32.ratio (-93) 2) (F32.ratio (-15) 2)].
Proof.
  repeat (split; [reflexivity|]). eexists. vm_compute. reflexivity.
Qed.

(** C6, amended: the sign is decided by one comparison per axis.  In the
    latitude hemisphere position N gives +1 and every other character, S
    included, gives -1; in the longitude hemisphere position E gives +1 and
    every other character, W included, gives -1.  No character makes the
    decoder fail. *)
Theorem hemisphere_sign_is_one_comparison buf :
  (buf !!! 12%nat = chr "N" -> lat_dir buf = 1)
  /\ (buf !!! 12%nat = chr "S" -> lat_dir buf = -1)
  /\ (buf !!! 12%nat <> chr "N" -> lat_dir buf = -1)
  /\ (buf !!! 26%nat = chr "E" -> long_dir buf = 1)
  /\ (buf !!! 26%nat = chr "W" -> long_dir buf = -1)
  /\ (buf !!! 26%nat <> chr "E" -> long_dir buf = -1).
Proof.
  unfold lat_dir, long_dir, ch_N, ch_E.
  repeat split; intros H;
    try (rewrite H; reflexivity);
    apply Z.eqb_neq in H; now rewrite H.
Qed.

Lemma hemisphere_sign_is_one_comparison_witness :
  lat_dir strange_hemispheres = -1 /\ long_dir strange_hemispheres = -1.
Proof.
  destruct (hemisphere_sign_is_one_comparison strange_hemispheres)
    as (_ & _ & Hlat & _ & _ & Hlong).
  split; [apply Hlat | apply Hlong]; vm_compute; discriminate.
Defined.

(** ** What is published *)

Lemma publications_app evs1 evs2 :
  publications (evs1 ++ evs2) = publications evs1 ++ publications evs2.
Proof. apply omap_app. Qed.

Lemma events_andThen r k :
  events_of (r >>> k)
  = match r with
    | Normal s evs => evs ++ events_of (k s)
    | BufferOverrun _ evs => evs
    end.
Proof. destruct r as [s evs|s evs]; simpl; [|done]. now destruct (k s). Qed.

(** Reading a character never publishes. *)
Lemma on_char_publishes_nothing s c : publications (events_of (on_char s c)) = [].
Proof.
  unfold on_char, store.
  repeat match goal with |- context [if ?b then _ else _] => destruct b end;
    reflexivity.
Qed.

Lemma feed_publishes_nothing bytes : forall s,
  publications (events_of (feed s bytes)) = [].
Proof.
  induction bytes as [|c bytes IH]; intros s; [done|].
  simpl feed. rewrite events_andThen.
  pose proof (on_char_publishes_nothing s c) as Hc.
  destruct (on_char s c) as [s1 evs1|s1 evs1]; simpl in Hc |- *; [|done].
  now rewrite publications_app, Hc, IH.
Qed.

(** The publications of a cycle: at most the one at its end. *)
Lemma cycle_publications s bytes :
  publications (events_of (cycle s bytes))
  = match cycle s bytes with
    | Normal s' _ =>
        if data_is_valid s' =? 0 then [] else [(latitude s', longitude s')]
    | BufferOverrun _ _ => []
    end.
Proof.
  unfold cycle. pose proof (feed_publishes_nothing bytes s) as Hfeed.
  destruct (feed s bytes) as [s1 evs1|s1 evs1]; simpl in Hfeed |- *; [|done].
  rewrite publications_app, Hfeed. unfold publish.
  now destruct (data_is_valid (no_data s1) =? 0).
Qed.




(** ** Before the first fix *)

Lemma scan_noise bytes seenV rest :
  ch_L ∉ bytes ->
  every_sentence_has_V false seenV (bytes ++ rest)
  = every_sentence_has_V false seenV rest.
Proof.
  induction bytes as [|c bytes IH]; intros HL; [done|].
  apply not_elem_of_cons in HL as [Hc HL].
  assert (Hc' : (c =? ch_L) = false) by (apply Z.eqb_neq; congruence).
  simpl. rewrite Hc'. now apply IH.
Qed.

Lemma scan_restart k armed seenV xs :
  every_sentence_has_V armed seenV (replicate k ch_L ++ ch_L :: xs)
  = every_sentence_has_V true false xs.
Proof.
  revert armed seenV. induction k as [|k IH]; intros armed seenV; [done|].
  simpl. change (ch_L =? ch_L) with true. cbv iota. apply IH.
Qed.

Lemma scan_body body : forall seenV rest,
  plain body ->
  every_sentence_has_V true seenV (body ++ rest)
  = every_sentence_has_V true (seenV || bool_decide (ch_V ∈ body)) rest.
Proof.
  induction body as [|c body IH]; intros seenV rest Hplain.
  - simpl. now rewrite orb_false_r.
  - apply plain_cons in Hplain as (HL & HCR & Hplain).
    simpl. rewrite HL, HCR, IH by assumption. f_equal.
    rewrite <- orb_assoc. f_equal.
    destruct (c =? ch_V) eqn:HV.
    + apply Z.eqb_eq in HV. subst c.
      symmetry. apply bool_decide_eq_true_2, elem_of_cons. now left.
    + apply Z.eqb_neq in HV. simpl. apply bool_decide_ext.
      rewrite elem_of_cons. intuition congruence.
Qed.

(** In a burst of not-fixed sentences every capture is closed after a
    ['V']. *)
Lemma not_fixed_burst_scan bytes :
  not_fixed_burst bytes -> forall seenV, every_sentence_has_V false seenV bytes = true.
Proof.
  induction 1 as [bytes HL|noise k body rest HL Hplain HV Hrest IH]; intros seenV.
  - rewrite <- (app_nil_r bytes). now rewrite scan_noise.
  - rewrite scan_noise by assumption. unfold sentence.
    simpl app. rewrite scan_restart, <- app_assoc, scan_body by assumption.
    rewrite (bool_decide_eq_true_2 _ HV). simpl. apply IH.
Qed.

(** One character keeps the loop in a state without fix, as long as the
    scan allows what follows. *)
Lemma on_char_before_fix armed seenV s c rest :
  before_fix armed seenV s ->
  every_sentence_has_V armed seenV (c :: rest) = true ->
  match on_char s c with
  | Normal s' _ =>
      exists armed' seenV',
        before_fix armed' seenV' s' /\ every_sentence_has_V armed' seenV' rest = true
  | BufferOverrun _ _ => True
  end.
Proof.
  intros (Hla & Hlo & Hen & Hva) Hscan. simpl in Hscan. unfold on_char.
  destruct (c =? ch_L) eqn:HL.
  { exists true, false. split; [|assumption]. repeat split; simpl; done. }
  destruct (enable_data_capture s =? 0) eqn:Hoff.
  { apply Z.eqb_eq in Hoff. destruct armed.
    - exfalso. now apply Hen.
    - exists false, seenV. split; [|assumption]. now repeat split. }
  apply Z.eqb_neq in Hoff. apply Hen in Hoff. subst armed. simpl in Hscan.
  destruct (c =? ch_CR) eqn:HCR.
  { apply andb_true_iff in Hscan as [HV Hscan]. simpl.
    rewrite (Hva eq_refl HV). simpl.
    exists false, seenV. split; [|assumption].
    repeat split; simpl; try assumption; done. }
  unfold store.
  destruct (c =? ch_V) eqn:HV; simpl;
    destruct ((0 <=? array_index s) && (array_index s <? capacity)); trivial;
    exists true; eexists; (split; [|eassumption]);
    repeat split; simpl; try assumption; try tauto.
  rewrite orb_false_r. auto.
Qed.

Lemma feed_before_fix bytes : forall armed seenV s rest,
  before_fix armed seenV s ->
  every_sentence_has_V armed seenV (bytes ++ rest) = true ->
  match feed s bytes with
  | Normal s' _ =>
      exists armed' seenV',
        before_fix armed' seenV' s' /\ every_sentence_has_V armed' seenV' rest = true
  | BufferOverrun _ _ => True
  end.
Proof.
  induction bytes as [|c bytes IH]; intros armed seenV s rest Hs Hscan.
  - simpl. now exists armed, seenV.
  - simpl feed.
    pose proof (on_char_before_fix armed seenV s c (bytes ++ rest) Hs Hscan) as Hc.
    destruct (on_char s c) as [s1 evs1|s1 evs1]; simpl; [|trivial].
    destruct Hc as (armed1 & seenV1 & Hs1 & Hscan1).
    specialize (IH armed1 seenV1 s1 rest Hs1 Hscan1).
    now destruct (feed s1 bytes).
Qed.

(** A cycle that starts without fix and reads only such characters
    publishes nothing and ends without fix. *)
Lemma cycle_before_fix bytes armed seenV s rest :
  before_fix armed seenV s ->
  every_sentence_has_V armed seenV (bytes ++ rest) = true ->
  publications (events_of (cycle s bytes)) = []
  /\ match cycle s bytes with
     | Normal s' _ =>
         exists armed' seenV',
           before_fix armed' seenV' s'
           /\ every_sentence_has_V armed' seenV' rest = true
     | BufferOverrun _ _ => True
     end.
Proof.
  intros Hs Hscan. unfold cycle.
  pose proof (feed_publishes_nothing bytes s) as Hquiet.
  pose proof (feed_before_fix bytes armed seenV s rest Hs Hscan) as Hkeep.
  destruct (feed s bytes) as [s1 evs1|s1 evs1]; simpl in Hquiet |- *; [|done].
  destruct Hkeep as (armed1 & seenV1 & (Hla & Hlo & Hen & Hva) & Hscan1).
  assert (Hno : no_data s1 = set_valid 0 s1)
    by (unfold no_data; now rewrite Hla, Hlo).
  rewrite Hno. split.
  - now rewrite publications_app, Hquiet.
  - exists armed1, seenV1. split; [|assumption].
    unfold before_fix. simpl. intuition.
Qed.

Lemma run_before_fix cycles : forall armed seenV s,
  before_fix armed seenV s ->
  every_sentence_has_V armed seenV (concat cycles) = true ->
  publications (events_of (run s cycles)) = [].
Proof.
  induction cycles as [|bytes cycles IH]; intros armed seenV s Hs Hscan; [done|].
  simpl in Hscan.
  destruct (cycle_before_fix bytes armed seenV s (concat cycles) Hs Hscan)
    as [Hquiet Hkeep].
  simpl run. rewrite events_andThen.
  destruct (cycle s bytes) as [s1 evs1|s1 evs1]; simpl in Hquiet; [|assumption].
  destruct Hkeep as (armed1 & seenV1 & Hs1 & Hscan1).
  rewrite publications_app, Hquiet. simpl. now apply (IH armed1 seenV1).
Qed.

(** C5. Let the loop start in its initial state, whatever the
    indeterminate locals and the array hold, and let the characters that
    arrive be a sequence of not-fixed sentences, cut into cycles anywhere,
    also inside a sentence, with cycles in which nothing arrives in
    between.  Then nothing is published. *)
Theorem no_emission_before_first_fix valid index arr cycles :
  not_fixed_burst (concat cycles) ->
  publications (events_of (run (initial valid index arr) cycles)) = [].
Proof.
  intros Hburst. apply (run_before_fix cycles false false).
  - repeat split; simpl; done.
  - now apply not_fixed_burst_scan.
Qed.

Lemma not_fixed_cycles_shape :
  not_fixed_burst (concat not_fixed_cycles).
Proof.
  change (not_fixed_burst
            (bytes_of "$GPG" ++ replicate 1 ch_L ++ sentence no_position
               ++ ([10] ++ gll_no_position ++ gll_no_position))).
  apply nfb_sentence; [decide_by_compute | split; decide_by_compute
                      | decide_by_compute |].
  change (not_fixed_burst
            ((10 :: bytes_of "$GPG") ++ replicate 1 ch_L ++ sentence no_position
               ++ ([10] ++ gll_no_position))).
  apply nfb_sentence; [decide_by_compute | split; decide_by_compute
                      | decide_by_compute |].
  change (not_fixed_burst
            ((10 :: bytes_of "$GPG") ++ replicate 1 ch_L ++ sentence no_position
               ++ [10])).
  apply nfb_sentence; [decide_by_compute | split; decide_by_compute
                      | decide_by_compute |].
  apply nfb_noise. decide_by_compute.
Defined.

Lemma no_emission_before_first_fix_witness :
  publications (events_of (run (initial 1 7 blank) not_fixed_cycles)) = [].
Proof.
  apply no_emission_before_first_fix. exact not_fixed_cycles_shape.
Defined.

(** The same run, evaluated: it ends normally, with three diagnostics. *)
Example startup_run_evaluated :
  exists s',
    run (initial 1 7 blank) not_fixed_cycles
    = Normal s' [CannotLocate; CannotLocate; CannotLocate].
Proof. eexists. vm_compute. reflexivity. Qed.

(** ** Not-fixed sentences *)





(** C9. While the capture is on, a ['V'] clears [data_is_valid] and, the
    [case] having no [break], is stored like any other character; and a
    ['V'] at any place of a body makes the whole sentence a not-fixed one,
    with the ['V'] in the array at that place. *)
Theorem V_anywhere_invalidates_and_is_stored :
  (forall s,
     enable_data_capture s <> 0 -> 0 <= array_index s < capacity ->
     on_char s ch_V
     = Normal (State (latitude s) (longitude s) (enable_data_capture s) 0
                     (array_index s + 1)
                     (<[Z.to_nat (array_index s) := ch_V]> (data_capture_array s)))
              [])
  /\ (forall s before after,
        plain before -> plain after ->
        Z.of_nat (length (before ++ ch_V :: after)) <= capacity ->
        length (data_capture_array s) = Z.to_nat capacity ->
        exists s',
          feed s (sentence (before ++ ch_V :: after)) = Normal s' [CannotLocate]
          /\ latitude s' = latitude s /\ longitude s' = longitude s
          /\ data_is_valid s' = 0
          /\ data_capture_array s' !!! length before = ch_V).
Proof.
  split.
  - intros s Hon Hix.
    rewrite on_char_plain by (assumption || reflexivity).
    rewrite Z.eqb_refl. now rewrite store_in_range.
  - intros s before after Hb Ha Hfit Hlen.
    assert (Hplain : plain (before ++ ch_V :: after)).
    { apply plain_app. split; [assumption|]. now apply plain_cons. }
    assert (HV : ch_V ∈ before ++ ch_V :: after).
    { apply elem_of_app. right. apply elem_of_cons. now left. }
    eexists. split; [now apply feed_not_fixed_sentence|].
    repeat split. simpl. unfold overlay.
    rewrite <- app_assoc. change ((ch_V :: after) ++ ?t) with (ch_V :: after ++ t).
    now apply list_lookup_total_middle.
Qed.

Lemma V_anywhere_invalidates_and_is_stored_witness :
  on_char (State F32.zero F32.zero 1 1 6 blank) ch_V
  = Normal (State F32.zero F32.zero 1 0 7 (<[6%nat := ch_V]> blank)) []
  /\ exists s',
       feed (initial 0 0 blank) (sentence (bytes_of ",,,,,," ++ ch_V :: bytes_of ",N*64"))
       = Normal s' [CannotLocate]
       /\ latitude s' = F32.zero /\ longitude s' = F32.zero
       /\ data_is_valid s' = 0
       /\ data_capture_array s' !!! 6%nat = ch_V.
Proof.
  destruct V_anywhere_invalidates_and_is_stored as [Hchar Hsentence]. split.
  - apply (Hchar (State F32.zero F32.zero 1 1 6 blank)); simpl; [discriminate|].
    unfold capacity. lia.
  - apply (Hsentence (initial 0 0 blank) (bytes_of ",,,,,,") (bytes_of ",N*64")).
    + split; decide_by_compute.
    + split; decide_by_compute.
    + vm_compute. discriminate.
    + reflexivity.
Defined.

(** ** The zero test *)

Lemma no_data_spec s :
  no_data s = if both_zero (latitude s) (longitude s) then set_valid 0 s else s.
Proof. reflexivity. Qed.

(** After the zero test, a set flag means the coordinates are not both zero. *)
Lemma no_data_flag s :
  data_is_valid (no_data s) <> 0 ->
  both_zero (latitude (no_data s)) (longitude (no_data s)) = false.
Proof.
  rewrite no_data_spec.
  destruct (both_zero (latitude s) (longitude s)) eqn:Hz; simpl; [done|].
  now intros _.
Qed.

Lemma cycle_never_publishes_zero s bytes lat lon :
  (lat, lon) ∈ publications (events_of (cycle s bytes)) -> both_zero lat lon = false.
Proof.
  rewrite cycle_publications. unfold cycle.
  destruct (feed s bytes) as [s1 evs1|s1 evs1]; simpl; [|now intros ?%elem_of_nil].
  destruct (data_is_valid (no_data s1) =? 0) eqn:Hv; [now intros ?%elem_of_nil|].
  intros Hin%list_elem_of_singleton. inversion Hin; subst.
  apply no_data_flag. now apply Z.eqb_neq.
Qed.

Lemma run_never_publishes_zero cycles : forall s lat lon,
  (lat, lon) ∈ publications (events_of (run s cycles)) -> both_zero lat lon = false.
Proof.
  induction cycles as [|bytes cycles IH]; intros s lat lon; simpl run.
  - now intros ?%elem_of_nil.
  - rewrite events_andThen.
    pose proof (cycle_never_publishes_zero s bytes lat lon) as Hcycle.
    destruct (cycle s bytes) as [s1 evs1|s1 evs1]; simpl in Hcycle; [|assumption].
    rewrite publications_app, elem_of_app. intros [Hin|Hin]; [now apply Hcycle|].
    now apply (IH s1).
Qed.

(** C10. If the stored latitude and longitude both compare equal to zero
    when the stream runs dry, the cycle clears [data_is_valid] and
    publishes nothing; so no run ever publishes a pair of zero coordinates,
    whether they are the initial values or were decoded from a sentence. *)
Theorem zero_coordinates_are_never_published s :
  (forall bytes s1 evs,
     feed s bytes = Normal s1 evs ->
     F32.eqb (latitude s1) F32.zero = true ->
     F32.eqb (longitude s1) F32.zero = true ->
     cycle s bytes = Normal (set_valid 0 s1) evs /\ publications evs = [])
  /\ (forall cycles lat lon,
        (lat, lon) ∈ publications (events_of (run s cycles)) ->
        (F32.eqb lat F32.zero && F32.eqb lon F32.zero) = false).
Proof.
  split.
  - intros bytes s1 evs Hfeed Hla Hlo.
    pose proof (feed_publishes_nothing bytes s) as Hquiet.
    unfold cycle. rewrite Hfeed in Hquiet |- *. simpl in Hquiet |- *.
    unfold no_data, both_zero. rewrite Hla, Hlo. simpl.
    now rewrite app_nil_r.
  - intros cycles lat lon. apply run_never_publishes_zero.
Qed.

(** After a fix at (47.5, 8.5) has been published, a sentence that decodes
    to exactly (0, 0) is parsed and stored, and is not published. *)
Lemma zero_coordinates_are_never_published_witness :
  cycle after_fix (sentence null_island)
  = Normal (State F32.zero F32.zero 0 0 39 (overlay null_island blank)) []
  /\ publications [] = [].
Proof.
  destruct (zero_coordinates_are_never_published after_fix) as [Hdry _].
  apply (Hdry (sentence null_island)
              (State F32.zero F32.zero 0 1 39 (overlay null_island blank)) []);
    vm_compute; reflexivity.
Defined.

(** ** Two sentences in one burst *)

(** C8, as the claim states it, fails: of two complete sentences read in
    one burst only the last takes effect at the sink.  The first alone
    publishes (47.5, 8.5); the burst of both publishes (48.5, 9) once,
    exactly as the second sentence alone does. *)
Lemma only_the_last_sentence_is_published :
  events_of (cycle (initial 0 0 blank) (bytes_of "$GPGL" ++ sentence complete_sentence ++ [10]))
  = [Publish (F32.ratio 95 2) (F32.ratio 17 2)]
  /\ events_of (cycle (initial 0 0 blank) two_sentences)
     = [Publish (F32.ratio 97 2) (F32.of_int 9)]
  /\ events_of (cycle (initial 0 0 blank) second_alone)
     = [Publish (F32.ratio 97 2) (F32.of_int 9)].
Proof. repeat split; vm_compute; reflexivity. Qed.

(** C8, amended: two complete sentences read in one burst are framed and
    parsed one after the other, the second over what the first left in the
    array; the cycle then publishes once, the coordinates of the second
    sentence, unless both are zero. *)
Theorem two_sentences_one_publication s first second :
  plain first -> ch_V ∉ first -> Z.of_nat (length first) <= capacity ->
  plain second -> ch_V ∉ second -> Z.of_nat (length second) <= capacity ->
  length (data_capture_array s) = Z.to_nat capacity ->
  let buf1 := overlay first (data_capture_array s) in
  let buf2 := overlay second buf1 in
  let fix2 := ProcessGPSData buf2 in
  (exists s1 s2,
     feed s (sentence first) = Normal s1 []
     /\ (latitude s1, longitude s1) = ProcessGPSData buf1
     /\ feed s1 (sentence second) = Normal s2 []
     /\ (latitude s2, longitude s2) = fix2
     /\ feed s (sentence first ++ sentence second) = Normal s2 [])
  /\ events_of (cycle s (sentence first ++ sentence second))
     = if both_zero (fst fix2) (snd fix2) then [] else [Publish (fst fix2) (snd fix2)].
Proof.
  intros Hp1 HV1 Hfit1 Hp2 HV2 Hfit2 Hlen buf1 buf2 fix2.
  pose proof (feed_fixed_sentence first s Hp1 HV1 Hfit1 Hlen) as H1.
  cbv zeta in H1. fold buf1 in H1.
  set (s1 := State (fst (ProcessGPSData buf1)) (snd (ProcessGPSData buf1))
                   0 1 (Z.of_nat (length first)) buf1) in *.
  assert (Hlen1 : length (data_capture_array s1) = Z.to_nat capacity)
    by now apply length_overlay.
  pose proof (feed_fixed_sentence second s1 Hp2 HV2 Hfit2 Hlen1) as H2.
  cbv zeta in H2. change (overlay second (data_capture_array s1)) with buf2 in H2.
  fold fix2 in H2.
  set (s2 := State (fst fix2) (snd fix2) 0 1 (Z.of_nat (length second)) buf2) in *.
  assert (Hboth : feed s (sentence first ++ sentence second) = Normal s2 []).
  { now rewrite feed_app, H1, andThen_Normal_nil. }
  split.
  - exists s1, s2. repeat split; assumption.
  - unfold cycle. rewrite Hboth, andThen_Normal_nil. simpl events_of.
    rewrite no_data_spec.
    change (latitude s2) with (fst fix2). change (longitude s2) with (snd fix2).
    destruct (both_zero (fst fix2) (snd fix2)); reflexivity.
Qed.

Lemma two_sentences_one_publication_witness :
  (exists s1 s2,
     feed (initial 0 0 blank) (sentence complete_sentence) = Normal s1 []
     /\ (latitude s1, longitude s1)
        = ProcessGPSData (overlay complete_sentence blank)
     /\ feed s1 (sentence later_sentence) = Normal s2 []
     /\ (latitude s2, longitude s2)
        = ProcessGPSData (overlay later_sentence (overlay complete_sentence blank))
     /\ feed (initial 0 0 blank) (sentence complete_sentence ++ sentence later_sentence)
        = Normal s2 [])
  /\ events_of (cycle (initial 0 0 blank)
                      (sentence complete_sentence ++ sentence later_sentence))
     = [Publish (F32.ratio 97 2) (F32.of_int 9)].
Proof.
  apply (two_sentences_one_publication (initial 0 0 blank)
           complete_sentence later_sentence).
  - split; decide_by_compute.
  - decide_by_compute.
  - vm_compute. discriminate.
  - split; decide_by_compute.
  - decide_by_compute.
  - vm_compute. discriminate.
  - reflexivity.
Defined.

(** * Further properties of the loop and of the parser *)

(** ** The uninitialised locals *)

Lemma alike_refl s : alike s s.
Proof. unfold alike. intuition. Qed.

Lemma alike_exec_andThen r1 r2 k1 k2 :
  alike_exec r1 r2 ->
  (forall s1 s2, alike s1 s2 -> alike_exec (k1 s1) (k2 s2)) ->
  alike_exec (r1 >>> k1) (r2 >>> k2).
Proof.
  intros Hr Hk.
  destruct r1 as [s1 evs1|s1 evs1], r2 as [s2 evs2|s2 evs2];
    simpl in Hr |- *; try contradiction; [|assumption].
  destruct Hr as [Hs ->]. specialize (Hk s1 s2 Hs).
  destruct (k1 s1), (k2 s2); simpl in Hk |- *; try contradiction.
  - destruct Hk as [Hs' ->]. now split.
  - now rewrite Hk.
Qed.

(** While a capture is under way, states that are alike are equal. *)
Lemma alike_capturing s1 s2 :
  alike s1 s2 -> enable_data_capture s1 <> 0 -> s1 = s2.
Proof.
  intros (Hla & Hlo & Hen & Harr & Hon & _) Hne.
  destruct (Hon Hne) as [Hix Hva].
  destruct s1, s2. simpl in *. congruence.
Qed.

Lemma alike_exec_refl r :
  alike_exec r r.
Proof. destruct r; simpl; [split; [apply alike_refl|]|]; reflexivity. Qed.

Lemma on_char_alike s1 s2 c :
  alike s1 s2 -> alike_exec (on_char s1 c) (on_char s2 c).
Proof.
  intros Hs.
  destruct (Z.eq_dec (enable_data_capture s1) 0) as [Hoff|Hon].
  - pose proof Hs as (Hla & Hlo & Hen & Harr & _ & Hva).
    unfold on_char. destruct (c =? ch_L).
    + simpl. split; [|reflexivity]. unfold start_capture, alike. simpl.
      rewrite Hla, Hlo, Harr. intuition.
    + rewrite <- Hen, Hoff. simpl. now split.
  - rewrite (alike_capturing s1 s2 Hs Hon). apply alike_exec_refl.
Qed.

Lemma feed_alike bytes : forall s1 s2,
  alike s1 s2 -> alike_exec (feed s1 bytes) (feed s2 bytes).
Proof.
  induction bytes as [|c bytes IH]; intros s1 s2 Hs; simpl feed.
  - simpl. now split.
  - apply alike_exec_andThen; [now apply on_char_alike | exact IH].
Qed.

(** After the zero test, states that were alike agree on
    [data_is_valid], and so on what is published. *)
Lemma no_data_alike s1 s2 :
  alike s1 s2 ->
  alike (no_data s1) (no_data s2) /\ publish (no_data s1) = publish (no_data s2).
Proof.
  intros (Hla & Hlo & Hen & Harr & Hon & Hoff).
  unfold no_data. rewrite <- Hla, <- Hlo.
  destruct (both_zero (latitude s1) (longitude s1)) eqn:Hz.
  - split; [|reflexivity]. unfold alike, set_valid. simpl. intuition.
  - assert (Hva : data_is_valid s1 = data_is_valid s2).
    { destruct (Z.eq_dec (enable_data_capture s1) 0) as [H0|H0].
      - destruct (Hoff H0) as [H|H]; [assumption | congruence].
      - now apply Hon. }
    split; [unfold alike; intuition|].
    unfold publish. now rewrite Hva, Hla, Hlo.
Qed.

Lemma cycle_alike bytes s1 s2 :
  alike s1 s2 -> alike_exec (cycle s1 bytes) (cycle s2 bytes).
Proof.
  intros Hs. unfold cycle. apply alike_exec_andThen; [now apply feed_alike|].
  intros t1 t2 Ht. simpl. now apply no_data_alike.
Qed.

Lemma run_alike cycles : forall s1 s2,
  alike s1 s2 -> alike_exec (run s1 cycles) (run s2 cycles).
Proof.
  induction cycles as [|bytes cycles IH]; intros s1 s2 Hs; simpl run.
  - simpl. now split.
  - apply alike_exec_andThen; [now apply cycle_alike | exact IH].
Qed.

Lemma alike_exec_events r1 r2 : alike_exec r1 r2 -> events_of r1 = events_of r2.
Proof.
  destruct r1, r2; simpl; try contradiction; [now intros [_ ->] | done].
Qed.

(** X1. [data_is_valid] and [array_index] are not initialised, and it
    does not matter: whatever two pairs of values they start with, the loop
    reports and publishes the same, and overruns the array in both runs or
    in neither. *)
Theorem uninitialised_locals_are_harmless valid1 index1 valid2 index2 arr cycles :
  events_of (run (initial valid1 index1 arr) cycles)
  = events_of (run (initial valid2 index2 arr) cycles)
  /\ ((exists s evs, run (initial valid1 index1 arr) cycles = Normal s evs)
      <-> (exists s evs, run (initial valid2 index2 arr) cycles = Normal s evs)).
Proof.
  assert (H : alike_exec (run (initial valid1 index1 arr) cycles)
                         (run (initial valid2 index2 arr) cycles)).
  { apply run_alike. unfold alike, initial. simpl.
    repeat split; try done. intros _. now right. }
  split; [now apply alike_exec_events|].
  destruct (run (initial valid1 index1 arr) cycles),
           (run (initial valid2 index2 arr) cycles);
    simpl in H; try contradiction.
  - split; intros _; eauto.
  - split; intros (? & ? & ?); discriminate.
Qed.

(** ** What the parser reads *)

Lemma ProcessGPSData_ext buf1 buf2 :
  (forall i, i ∈ read_positions -> buf1 !!! i = buf2 !!! i) ->
  ProcessGPSData buf1 = ProcessGPSData buf2.
Proof.
  intros H.
  assert (Hd : forall i, i ∈ digit_positions -> digit_at buf1 i = digit_at buf2 i).
  { intros i Hi. unfold digit_at. rewrite H; [done|].
    unfold read_positions. apply elem_of_app. now left. }
  unfold ProcessGPSData, lat_deg, lat_min, lat_sec, lat_dir,
    long_deg, long_min, long_sec, long_dir.
  rewrite (H 12%nat), (H 26%nat) by decide_by_compute.
  rewrite !(Hd 1%nat), !(Hd 2%nat), !(Hd 3%nat), !(Hd 4%nat), !(Hd 6%nat),
    !(Hd 7%nat), !(Hd 8%nat), !(Hd 9%nat), !(Hd 10%nat), !(Hd 14%nat),
    !(Hd 15%nat), !(Hd 16%nat), !(Hd 17%nat), !(Hd 18%nat), !(Hd 20%nat),
    !(Hd 21%nat), !(Hd 22%nat), !(Hd 23%nat), !(Hd 24%nat)
    by decide_by_compute.
  reflexivity.
Qed.

(** X2. [ProcessGPSData] looks at the nineteen digit offsets and the two
    hemisphere offsets only: two arrays that agree there give the same
    coordinates, whatever stands at offset 0, at the decimal points and
    commas, and from offset 27 on (time, status, checksum). *)
Theorem parser_reads_fixed_offsets_only buf1 buf2 :
  (forall i, i ∈ read_positions -> buf1 !!! i = buf2 !!! i) ->
  ProcessGPSData buf1 = ProcessGPSData buf2.
Proof. apply ProcessGPSData_ext. Qed.

Lemma parser_reads_fixed_offsets_only_witness :
  ProcessGPSData (bytes_of ",4730.00000,N,00830.00000,E,092321,A*60")
  = ProcessGPSData (bytes_of "$4730:00000;N?00830!00000#E").
Proof.
  apply parser_reads_fixed_offsets_only.
  intros i Hi. unfold read_positions, digit_positions in Hi. simpl in Hi.
  repeat (apply elem_of_cons in Hi as [->|Hi]; [reflexivity|]).
  now apply elem_of_nil in Hi.
Defined.

Lemma overlay_lookup body arr i :
  (i < length body)%nat -> overlay body arr !!! i = body !!! i.
Proof. intros Hi. unfold overlay. now apply lookup_total_app_l. Qed.

Lemma read_positions_below i : i ∈ read_positions -> (i < 27)%nat.
Proof.
  unfold read_positions, digit_positions. simpl. intros Hi.
  repeat (apply elem_of_cons in Hi as [->|Hi]; [lia|]).
  now apply elem_of_nil in Hi.
Qed.

(** X3. When a sentence without ['V'] whose body has at least 27
    characters (and fits the array) is read from its ['L'] to its carriage
    return in one go, without the port running dry in between, it is
    decoded from its own characters alone: what the array held before has
    no influence on the coordinates stored. *)
Theorem long_sentence_is_decoded_from_its_own_characters s body :
  plain body -> ch_V ∉ body ->
  27 <= Z.of_nat (length body) <= capacity ->
  length (data_capture_array s) = Z.to_nat capacity ->
  exists s',
    feed s (sentence body) = Normal s' []
    /\ (latitude s', longitude s') = ProcessGPSData body.
Proof.
  intros Hplain HV [Hlong Hfit] Hlen. eexists.
  split; [now apply feed_fixed_sentence|].
  transitivity (ProcessGPSData (overlay body (data_capture_array s)));
    [reflexivity|].
  apply ProcessGPSData_ext.
  intros i Hi. apply overlay_lookup.
  apply read_positions_below in Hi. lia.
Qed.

Lemma long_sentence_is_decoded_from_its_own_characters_witness :
  exists s',
    feed (initial 0 0 (replicate 40 (chr "9"))) (sentence complete_sentence)
    = Normal s' []
    /\ (latitude s', longitude s') = ProcessGPSData complete_sentence.
Proof.
  apply long_sentence_is_decoded_from_its_own_characters.
  - split; decide_by_compute.
  - decide_by_compute.
  - split; vm_compute; discriminate.
  - reflexivity.
Defined.

(** ** Interrupted and split sentences *)

(** The characters of a capture that started at offset 0. *)
Lemma feed_head head s :
  plain head -> Z.of_nat (length head) <= capacity ->
  length (data_capture_array s) = Z.to_nat capacity ->
  feed s (ch_L :: head)
  = Normal (State (latitude s) (longitude s) 1
                  (if bool_decide (ch_V ∈ head) then 0 else 1)
                  (Z.of_nat (length head))
                  (overlay head (data_capture_array s))) [].
Proof.
  intros Hplain Hfit Hlen.
  change (feed s (ch_L :: head))
    with (Normal (start_capture s) [] >>> (fun s' => feed s' head)).
  rewrite andThen_Normal_nil.
  now rewrite (feed_body head (start_capture s))
    by (simpl; first [assumption | lia]).
Qed.

Lemma overlay_app head tail arr :
  take (length head) (overlay head arr) ++ tail
    ++ drop (length head + length tail) (overlay head arr)
  = overlay (head ++ tail) arr.
Proof.
  unfold overlay.
  rewrite take_app_length, drop_app_add, drop_drop, length_app.
  now rewrite <- app_assoc.
Qed.

(** The rest of a capture, up to its carriage return. *)
Lemma feed_tail head tail la lo v arr :
  plain tail -> Z.of_nat (length head) + Z.of_nat (length tail) <= capacity ->
  Z.of_nat (length head) <= capacity ->
  length arr = Z.to_nat capacity ->
  let buf := overlay (head ++ tail) arr in
  let n := Z.of_nat (length head) + Z.of_nat (length tail) in
  feed (State la lo 1 v (Z.of_nat (length head)) (overlay head arr)) (tail ++ [ch_CR])
  = if (if bool_decide (ch_V ∈ tail) then 0 else v) =? 0
    then Normal (State la lo 0 0 n buf) [CannotLocate]
    else Normal (State (fst (ProcessGPSData buf)) (snd (ProcessGPSData buf)) 0
                       (if bool_decide (ch_V ∈ tail) then 0 else v) n buf) [].
Proof.
  intros Hplain Hfit Hhead Hlen buf n.
  rewrite feed_app, feed_body
    by (simpl; first [assumption | lia | now apply length_overlay]).
  rewrite andThen_Normal_nil. cbn [feed]. rewrite andThen_Normal_ret.
  unfold on_char. rewrite ch_CR_not_L. unfold capture. simpl.
  rewrite Nat2Z.id, overlay_app. fold buf. fold n.
  destruct ((if bool_decide (ch_V ∈ tail) then 0 else v) =? 0) eqn:Hv;
    [|reflexivity].
  apply Z.eqb_eq in Hv. now rewrite Hv.
Qed.

(** X4. An ['L'] that arrives while a capture is under way starts over:
    the index goes back to 0 and [data_is_valid] to 1, so a ['V'] of the
    interrupted sentence is forgotten; what the interrupted sentence had
    stored stays in the array. *)
Theorem restart_forgets_the_interrupted_sentence s junk rest :
  plain junk -> Z.of_nat (length junk) <= capacity ->
  length (data_capture_array s) = Z.to_nat capacity ->
  feed s (ch_L :: junk ++ ch_L :: rest)
  = feed (State (latitude s) (longitude s) 1 1 0
                (overlay junk (data_capture_array s))) rest.
Proof.
  intros Hplain Hfit Hlen.
  change (ch_L :: junk ++ ch_L :: rest) with ((ch_L :: junk) ++ ch_L :: rest).
  rewrite feed_app, feed_head, andThen_Normal_nil by assumption.
  change (feed ?t (ch_L :: rest))
    with (Normal (start_capture t) [] >>> (fun s' => feed s' rest)).
  now rewrite andThen_Normal_nil.
Qed.

Lemma restart_forgets_the_interrupted_sentence_witness :
  feed after_fix (ch_L :: no_position ++ ch_L :: complete_sentence ++ [ch_CR])
  = feed (State (F32.ratio 95 2) (F32.ratio 17 2) 1 1 0 (overlay no_position blank))
         (complete_sentence ++ [ch_CR]).
Proof.
  apply (restart_forgets_the_interrupted_sentence after_fix no_position).
  - split; decide_by_compute.
  - vm_compute. discriminate.
  - reflexivity.
Defined.

(** X6. As long as both stored coordinates are zero, a sentence that
    arrives in two cycles is not parsed, with or without ['V']: the zero
    test at the end of the first cycle clears [data_is_valid], and the
    carriage return in the second finds it cleared. *)
Theorem split_sentence_before_first_fix_is_dropped s head tail :
  both_zero (latitude s) (longitude s) = true ->
  plain head -> plain tail ->
  Z.of_nat (length head) + Z.of_nat (length tail) <= capacity ->
  length (data_capture_array s) = Z.to_nat capacity ->
  run s [ch_L :: head; tail ++ [ch_CR]]
  = Normal (State (latitude s) (longitude s) 0 0
                  (Z.of_nat (length head) + Z.of_nat (length tail))
                  (overlay (head ++ tail) (data_capture_array s)))
           [CannotLocate].
Proof.
  intros Hz Hhead Htail Hfit Hlen.
  assert (Hfit' : Z.of_nat (length head) <= capacity) by lia.
  simpl run. unfold cycle at 1. rewrite feed_head by assumption.
  rewrite andThen_Normal_nil. unfold no_data at 1 2. simpl latitude.
  simpl longitude. rewrite Hz. unfold set_valid, publish. simpl.
  unfold cycle. rewrite (feed_tail head tail) by assumption.
  assert (Hv : ((if bool_decide (ch_V ∈ tail) then 0 else 0) =? 0) = true)
    by now destruct (bool_decide _).
  rewrite Hv. simpl. unfold no_data. simpl. now rewrite Hz.
Qed.

Lemma split_sentence_before_first_fix_is_dropped_witness :
  run (initial 0 0 blank)
      [ch_L :: bytes_of ",4730.00000,N,0"; bytes_of "0830.00000,E,092321,A*60" ++ [ch_CR]]
  = Normal (State F32.zero F32.zero 0 0 39 (overlay complete_sentence blank))
           [CannotLocate].
Proof.
  apply (split_sentence_before_first_fix_is_dropped (initial 0 0 blank)
           (bytes_of ",4730.00000,N,0") (bytes_of "0830.00000,E,092321,A*60")).
  - reflexivity.
  - split; decide_by_compute.
  - split; decide_by_compute.
  - vm_compute. discriminate.
  - reflexivity.
Defined.

(** X7. Once a fix with a nonzero coordinate is stored, a sentence that
    arrives in two cycles is parsed exactly as if it had arrived in one;
    the only difference is that the first of the two cycles publishes the
    stored fix once more, the ['L'] having set [data_is_valid]. *)
Theorem split_sentence_after_a_fix_is_decoded s head tail :
  both_zero (latitude s) (longitude s) = false ->
  plain head -> plain tail -> ch_V ∉ head ->
  Z.of_nat (length head) + Z.of_nat (length tail) <= capacity ->
  length (data_capture_array s) = Z.to_nat capacity ->
  exists s' evs,
    cycle s (sentence (head ++ tail)) = Normal s' evs
    /\ run s [ch_L :: head; tail ++ [ch_CR]]
       = Normal s' (Publish (latitude s) (longitude s) :: evs).
Proof.
  intros Hz Hhead Htail HVh Hfit Hlen.
  assert (Hfit' : Z.of_nat (length head) <= capacity) by lia.
  assert (Hone : cycle s (sentence (head ++ tail))
                 = feed (State (latitude s) (longitude s) 1 1
                               (Z.of_nat (length head))
                               (overlay head (data_capture_array s)))
                        (tail ++ [ch_CR])
                   >>> (fun s' => Normal (no_data s') (publish (no_data s')))).
  { unfold cycle, sentence. f_equal.
    rewrite <- app_assoc.
    change (ch_L :: head ++ tail ++ [ch_CR])
      with ((ch_L :: head) ++ tail ++ [ch_CR]).
    rewrite feed_app, feed_head, andThen_Normal_nil by assumption.
    now rewrite (bool_decide_eq_false_2 _ HVh). }
  assert (Htwo : run s [ch_L :: head; tail ++ [ch_CR]]
                 = Normal (State (latitude s) (longitude s) 1 1
                                 (Z.of_nat (length head))
                                 (overlay head (data_capture_array s)))
                          [Publish (latitude s) (longitude s)]
                   >>> (fun s1 => cycle s1 (tail ++ [ch_CR]))).
  { simpl run.
    rewrite (andThen_ext _ _ (fun s1 => cycle s1 (tail ++ [ch_CR])))
      by (intros; apply andThen_Normal_ret).
    unfold cycle at 1.
    rewrite feed_head, andThen_Normal_nil by assumption.
    rewrite (bool_decide_eq_false_2 _ HVh).
    unfold no_data. simpl latitude. simpl longitude. now rewrite Hz. }
  rewrite Hone, Htwo. unfold cycle. rewrite (andThen_Normal _ [Publish _ _]).
  cbv beta. rewrite (feed_tail head tail) by assumption.
  destruct ((if bool_decide (ch_V ∈ tail) then 0 else 1) =? 0);
    simpl; eexists; eexists; split; reflexivity.
Qed.

Lemma split_sentence_after_a_fix_is_decoded_witness :
  exists s' evs,
    cycle after_fix
          (sentence (bytes_of ",4830.00000,N,0" ++ bytes_of "0900.00000,E,092322,A*61"))
    = Normal s' evs
    /\ run after_fix
           [ch_L :: bytes_of ",4830.00000,N,0";
            bytes_of "0900.00000,E,092322,A*61" ++ [ch_CR]]
       = Normal s' (Publish (latitude after_fix) (longitude after_fix) :: evs).
Proof.
  apply (split_sentence_after_a_fix_is_decoded after_fix
           (bytes_of ",4830.00000,N,0") (bytes_of "0900.00000,E,092322,A*61")).
  - reflexivity.
  - split; decide_by_compute.
  - split; decide_by_compute.
  - decide_by_compute.
  - vm_compute. discriminate.
  - reflexivity.
Defined.

(** ** Cycles in which no sentence starts *)

Lemma no_data_idem s : no_data (no_data s) = no_data s.
Proof.
  unfold no_data.
  destruct (both_zero (latitude s) (longitude s)) eqn:Hz; simpl; now rewrite Hz.
Qed.

Lemma cycle_noise bytes s :
  enable_data_capture s = 0 -> ch_L ∉ bytes ->
  cycle s bytes = Normal (no_data s) (publish (no_data s)).
Proof.
  intros Hoff HL. unfold cycle. now rewrite feed_noise, andThen_Normal_nil.
Qed.

Lemma enable_no_data s : enable_data_capture (no_data s) = enable_data_capture s.
Proof. unfold no_data. now destruct (both_zero _ _). Qed.

Lemma run_noise cycles : forall s,
  enable_data_capture s = 0 -> Forall (fun bytes => ch_L ∉ bytes) cycles ->
  run (no_data s) cycles
  = Normal (no_data s) (concat (replicate (length cycles) (publish (no_data s)))).
Proof.
  induction cycles as [|bytes cycles IH]; intros s Hoff Hall; [done|].
  apply Forall_cons in Hall as [HL Hall].
  simpl run. rewrite cycle_noise by (rewrite ?enable_no_data; assumption).
  rewrite no_data_idem, andThen_Normal. cbv beta.
  now rewrite IH by assumption.
Qed.

(** X5. While no capture is under way and no ['L'] arrives, every cycle
    does the same: it leaves the state as the first zero test left it and
    repeats one publication, the stored fix if [data_is_valid] is set and
    the coordinates are not both zero, nothing otherwise.  So the last fix
    is published again every cycle while the module is silent, and after a
    not-fixed sentence nothing is. *)
Theorem idle_cycles_repeat_the_stored_fix s bytes cycles :
  enable_data_capture s = 0 ->
  Forall (fun bytes => ch_L ∉ bytes) (bytes :: cycles) ->
  run s (bytes :: cycles)
  = Normal (no_data s)
           (concat (replicate (S (length cycles)) (publish (no_data s))))
  /\ publish (no_data s)
     = if (data_is_valid s =? 0) || both_zero (latitude s) (longitude s)
       then [] else [Publish (latitude s) (longitude s)].
Proof.
  intros Hoff Hall. apply Forall_cons in Hall as [HL Hall]. split.
  - simpl run. rewrite cycle_noise, andThen_Normal by assumption. cbv beta.
    now rewrite run_noise by assumption.
  - unfold no_data, publish.
    destruct (both_zero (latitude s) (longitude s)); simpl.
    + now rewrite orb_true_r.
    + now rewrite orb_false_r.
Qed.

Lemma idle_cycles_repeat_the_stored_fix_witness :
  run after_fix [[]; [10]; []]
  = Normal (no_data after_fix)
           (concat (replicate 3 (publish (no_data after_fix))))
  /\ publish (no_data after_fix)
     = [Publish (F32.ratio 95 2) (F32.ratio 17 2)].
Proof.
  apply (idle_cycles_repeat_the_stored_fix after_fix [] [[10]; []]).
  - reflexivity.
  - repeat apply Forall_cons_2; try apply Forall_nil_2; decide_by_compute.
Defined.

(** ** What changes the coordinates *)

Lemma on_char_without_CR s c :
  c <> ch_CR ->
  match on_char s c with
  | Normal s' evs | BufferOverrun s' evs =>
      evs = [] /\ latitude s' = latitude s /\ longitude s' = longitude s
  end.
Proof.
  intros Hc. apply Z.eqb_neq in Hc. unfold on_char, store. rewrite Hc.
  repeat match goal with |- context [if ?b then _ else _] => destruct b end;
    simpl; auto.
Qed.

(** X8. Only a carriage return can change the stored coordinates or
    produce the diagnostic: after any characters without one, however the
    reading ends, latitude and longitude are what they were and nothing has
    been reported. *)
Theorem coordinates_change_at_carriage_returns_only bytes : forall s,
  ch_CR ∉ bytes ->
  match feed s bytes with
  | Normal s' evs | BufferOverrun s' evs =>
      evs = [] /\ latitude s' = latitude s /\ longitude s' = longitude s
  end.
Proof.
  induction bytes as [|c bytes IH]; intros s HCR; [done|].
  apply not_elem_of_cons in HCR as [Hc HCR].
  simpl feed. pose proof (on_char_without_CR s c) as H1.
  destruct (on_char s c) as [s1 evs1|s1 evs1]; simpl;
    [|apply H1; congruence].
  destruct H1 as (-> & Hla & Hlo); [congruence|].
  specialize (IH s1 HCR). rewrite <- Hla, <- Hlo.
  now destruct (feed s1 bytes).
Qed.

Lemma coordinates_change_at_carriage_returns_only_witness :
  match feed after_fix (bytes_of "$GPGLL,4830.00000,N,00900.00000,E,092322,A*61") with
  | Normal s' evs | BufferOverrun s' evs =>
      evs = [] /\ latitude s' = latitude after_fix
      /\ longitude s' = longitude after_fix
  end.
Proof.
  apply coordinates_change_at_carriage_returns_only. decide_by_compute.
Defined.

(** ** The rate of publication *)

(** X9. A run never publishes more often than once per cycle, however
    many sentences the cycles read. *)
Theorem at_most_one_publication_per_cycle cycles : forall s,
  (length (publications (events_of (run s cycles))) <= length cycles)%nat.
Proof.
  induction cycles as [|bytes cycles IH]; intros s; [done|].
  simpl run. rewrite events_andThen.
  pose proof (cycle_publications s bytes) as Hc.
  destruct (cycle s bytes) as [s1 evs1|s1 evs1]; simpl in Hc |- *.
  - rewrite publications_app, length_app, Hc. specialize (IH s1).
    destruct (data_is_valid s1 =? 0); simpl; lia.
  - rewrite Hc. simpl. lia.
Qed.

(** ** From a written position to the published one *)

Lemma chars_of_digits n :
  0 <= n < 100 ->
  (ch_0 + n / 10 - ch_0) * 10 + (ch_0 + n mod 10 - ch_0) = n.
Proof. intros Hn. unfold ch_0. Z.div_mod_to_equations. lia. Qed.

Lemma chars_of_three_digits n :
  0 <= n < 1000 ->
  (ch_0 + n / 100 - ch_0) * 100 + (ch_0 + n / 10 mod 10 - ch_0) * 10
    + (ch_0 + n mod 10 - ch_0) = n.
Proof. intros Hn. unfold ch_0. Z.div_mod_to_equations. lia. Qed.

(** A decimal digit is none of the characters the loop treats specially. *)
Lemma digit_is_ordinary d :
  0 <= d <= 9 -> ch_0 + d <> ch_L /\ ch_0 + d <> ch_CR /\ ch_0 + d <> ch_V.
Proof.
  intros Hd. change ch_0 with 48. change ch_L with 76.
  change ch_CR with 13. change ch_V with 86. lia.
Qed.

Lemma ordinary_cons c l :
  c <> ch_L /\ c <> ch_CR /\ c <> ch_V ->
  plain l /\ ch_V ∉ l -> plain (c :: l) /\ ch_V ∉ c :: l.
Proof.
  unfold plain. rewrite !not_elem_of_cons. intuition congruence.
Qed.

Lemma gll_body_ordinary lat_d lat_m north lon_d lon_m east :
  0 <= lat_d < 100 -> 0 <= lat_m < 100 ->
  0 <= lon_d < 1000 -> 0 <= lon_m < 100 ->
  plain (gll_body lat_d lat_m north lon_d lon_m east sample_tail)
  /\ ch_V ∉ gll_body lat_d lat_m north lon_d lon_m east sample_tail.
Proof.
  intros H1 H2 H3 H4.
  assert (Hq : forall n, 0 <= n < 100 -> 0 <= n / 10 <= 9).
  { intros n Hn. split; [apply Z.div_pos; lia|].
    apply Z.lt_succ_r. apply Z.div_lt_upper_bound; lia. }
  assert (Hq3 : 0 <= lon_d / 100 <= 9).
  { split; [apply Z.div_pos; lia|].
    apply Z.lt_succ_r. apply Z.div_lt_upper_bound; lia. }
  assert (Hm : forall n, 0 <= n mod 10 <= 9).
  { intros n. pose proof (Z.mod_pos_bound n 10). lia. }
  unfold gll_body, two_digits, three_digits.
  change (bytes_of ".00000,") with [46; 48; 48; 48; 48; 48; 44].
  simpl app.
  repeat (apply ordinary_cons;
          [first [ apply digit_is_ordinary; auto
                 | destruct north; vm_compute; repeat split; discriminate
                 | destruct east; vm_compute; repeat split; discriminate
                 | vm_compute; repeat split; discriminate ] |]).
  split; [split|]; decide_by_compute.
Qed.

Lemma length_gll_body lat_d lat_m north lon_d lon_m east :
  length (gll_body lat_d lat_m north lon_d lon_m east sample_tail) = 39%nat.
Proof. reflexivity. Qed.

(** The fields the parser finds in such a body. *)
Lemma gll_body_fields lat_d lat_m north lon_d lon_m east rest :
  0 <= lat_d < 100 -> 0 <= lat_m < 100 ->
  0 <= lon_d < 1000 -> 0 <= lon_m < 100 ->
  let buf := gll_body lat_d lat_m north lon_d lon_m east rest in
  lat_deg buf = lat_d /\ lat_min buf = lat_m /\ lat_sec buf = F32.zero
  /\ lat_dir buf = (if north then 1 else -1)
  /\ long_deg buf = lon_d /\ long_min buf = lon_m /\ long_sec buf = F32.zero
  /\ long_dir buf = (if east then 1 else -1).
Proof.
  intros H1 H2 H3 H4 buf.
  split; [exact (chars_of_digits lat_d H1)|].
  split; [exact (chars_of_digits lat_m H2)|].
  split; [vm_compute; reflexivity|].
  split; [now destruct north|].
  split; [exact (chars_of_three_digits lon_d H3)|].
  split; [exact (chars_of_digits lon_m H4)|].
  split; [vm_compute; reflexivity|].
  now destruct east.
Qed.

(** X10. When a position written as the module writes it ([ddmm.00000],
    hemisphere, [dddmm.00000], hemisphere, then time, status and checksum)
    is read from its ['L'] to its carriage return in one go, without the
    port running dry in between, it is framed, parsed and stored as
    [ConvertDMSToDD] of the very degrees and minutes that were written,
    with zero seconds and the sign +1 for N and E, -1 for S and W; nothing
    of what the array held before enters. *)
Theorem written_position_is_decoded s lat_d lat_m north lon_d lon_m east :
  0 <= lat_d < 100 -> 0 <= lat_m < 100 ->
  0 <= lon_d < 1000 -> 0 <= lon_m < 100 ->
  length (data_capture_array s) = Z.to_nat capacity ->
  exists s',
    feed s (sentence (gll_body lat_d lat_m north lon_d lon_m east sample_tail))
    = Normal s' []
    /\ latitude s'
       = ConvertDMSToDD lat_d lat_m F32.zero (if north then 1 else -1)
    /\ longitude s'
       = ConvertDMSToDD lon_d lon_m F32.zero (if east then 1 else -1).
Proof.
  intros H1 H2 H3 H4 Hlen.
  destruct (gll_body_ordinary lat_d lat_m north lon_d lon_m east H1 H2 H3 H4)
    as [Hplain HV].
  set (body := gll_body lat_d lat_m north lon_d lon_m east sample_tail) in *.
  assert (Hbody : ProcessGPSData (overlay body (data_capture_array s))
                  = ProcessGPSData body).
  { apply ProcessGPSData_ext. intros i Hi. apply overlay_lookup.
    apply read_positions_below in Hi. unfold body.
    rewrite length_gll_body. lia. }
  destruct (gll_body_fields lat_d lat_m north lon_d lon_m east sample_tail
              H1 H2 H3 H4)
    as (E1 & E2 & E3 & E4 & E5 & E6 & E7 & E8).
  fold body in E1, E2, E3, E4, E5, E6, E7, E8.
  eexists. split.
  - apply feed_fixed_sentence; try assumption.
    unfold body. rewrite length_gll_body. unfold capacity. lia.
  - cbn [latitude longitude]. rewrite Hbody. unfold ProcessGPSData.
    cbn [fst snd]. now rewrite E1, E2, E3, E4, E5, E6, E7, E8.
Qed.

Lemma written_position_is_decoded_witness :
  exists s',
    feed after_fix (sentence (gll_body 33 52 false 151 12 true sample_tail))
    = Normal s' []
    /\ latitude s' = ConvertDMSToDD 33 52 F32.zero (-1)
    /\ longitude s' = ConvertDMSToDD 151 12 F32.zero 1.
Proof.
  apply (written_position_is_decoded after_fix 33 52 false 151 12 true);
    first [lia | reflexivity].
Defined.

(** ** Zero degrees *)

Lemma minutes_over_sixty_not_negative_zero :
  forallb (fun m => negb (is_negative_zero (F32.div (F32.of_int m) (F32.of_int 60))))
          (seqZ 0 100) = true.
Proof. vm_compute. reflexivity. Qed.

Lemma add_to_either_zero y :
  is_negative_zero y = false ->
  F32.add (S754_zero true) y = F32.add (S754_zero false) y.
Proof. destruct y as [[|]| | |]; simpl; intros H; try reflexivity; discriminate. Qed.

(** X11. With zero degrees the hemisphere has no effect: for every
    minutes value two digits can give and every seconds value, the result
    for South (or West) is the result for North (or East).  The sign only
    multiplies the degrees, and the zero it then yields, negative or not,
    vanishes in the sum. *)
Theorem hemisphere_is_lost_at_zero_degrees min sec :
  0 <= min < 100 ->
  ConvertDMSToDD 0 min sec (-1) = ConvertDMSToDD 0 min sec 1.
Proof.
  intros Hmin. unfold ConvertDMSToDD. f_equal.
  change (F32.mul (F32.of_int (-1)) (F32.of_int 0)) with (S754_zero true).
  change (F32.mul (F32.of_int 1) (F32.of_int 0)) with (S754_zero false).
  apply add_to_either_zero.
  pose proof minutes_over_sixty_not_negative_zero as Hall.
  rewrite forallb_forall in Hall.
  apply negb_true_iff, Hall, list_elem_of_In, elem_of_seqZ. lia.
Qed.

Lemma hemisphere_is_lost_at_zero_degrees_witness :
  ConvertDMSToDD 0 30 F32.zero (-1) = ConvertDMSToDD 0 30 F32.zero 1.
Proof. apply hemisphere_is_lost_at_zero_degrees. lia. Defined.

(** ** What the loop keeps true *)

Lemma well_formed_flag s :
  well_formed s -> enable_data_capture s <> 0 ->
  data_is_valid s = 0 \/ data_is_valid s = 1.
Proof. intros (_ & _ & _ & Hv) Hon. intuition. Qed.

(** One character keeps the state well formed; and when the store leaves
    the array, it is at index [capacity], with the capture on. *)
Lemma on_char_well_formed s c :
  well_formed s ->
  match on_char s c with
  | Normal s' _ => well_formed s'
  | BufferOverrun s' _ => array_index s' = capacity /\ enable_data_capture s' = 1
  end.
Proof.
  intros Hwf. pose proof Hwf as (Hlen & Hen & Hix & Hva).
  unfold on_char.
  destruct (c =? ch_L).
  { unfold well_formed, start_capture, capacity. simpl. intuition lia. }
  destruct (enable_data_capture s =? 0) eqn:Hoff; [assumption|].
  apply Z.eqb_neq in Hoff.
  pose proof (well_formed_flag s Hwf Hoff) as Hflag. specialize (Hix Hoff).
  assert (Hone : enable_data_capture s = 1) by (destruct Hen; [contradiction | assumption]).
  destruct (c =? ch_CR).
  { simpl. destruct (data_is_valid s =? 0);
      unfold well_formed; simpl; intuition. }
  unfold store.
  destruct (c =? ch_V); simpl;
    destruct ((0 <=? array_index s) && (array_index s <? capacity)) eqn:Hin;
    try (apply andb_true_iff in Hin as [_ Hin%Z.ltb_lt];
         unfold well_formed; simpl; rewrite length_insert; intuition lia);
    (apply andb_false_iff in Hin as [Hin%Z.leb_gt|Hin%Z.ltb_ge];
     simpl; split; try assumption; lia).
Qed.

Lemma feed_well_formed bytes : forall s,
  well_formed s ->
  match feed s bytes with
  | Normal s' _ => well_formed s'
  | BufferOverrun s' _ => array_index s' = capacity /\ enable_data_capture s' = 1
  end.
Proof.
  induction bytes as [|c bytes IH]; intros s Hwf; [exact Hwf|].
  simpl feed. pose proof (on_char_well_formed s c Hwf) as Hc.
  destruct (on_char s c) as [s1 evs1|s1 evs1]; simpl; [|exact Hc].
  specialize (IH s1 Hc). now destruct (feed s1 bytes).
Qed.

(** After the zero test [data_is_valid] is 0 or 1, whatever it was when
    the loop was entered. *)
Lemma no_data_well_formed s :
  well_formed s ->
  well_formed (no_data s)
  /\ (data_is_valid (no_data s) = 0 \/ data_is_valid (no_data s) = 1).
Proof.
  intros (Hlen & Hen & Hix & Hva). unfold no_data.
  destruct (both_zero (latitude s) (longitude s)) eqn:Hz.
  - unfold well_formed. simpl. intuition.
  - unfold well_formed. rewrite Hz. intuition congruence.
Qed.

Lemma cycle_well_formed bytes s :
  well_formed s ->
  match cycle s bytes with
  | Normal s' _ =>
      well_formed s' /\ (data_is_valid s' = 0 \/ data_is_valid s' = 1)
  | BufferOverrun s' _ => array_index s' = capacity /\ enable_data_capture s' = 1
  end.
Proof.
  intros Hwf. unfold cycle. pose proof (feed_well_formed bytes s Hwf) as Hf.
  destruct (feed s bytes) as [s1 evs1|s1 evs1]; simpl; [|exact Hf].
  now apply no_data_well_formed.
Qed.

Lemma run_well_formed cycles : forall bytes s,
  well_formed s ->
  match run s (bytes :: cycles) with
  | Normal s' _ =>
      well_formed s' /\ (data_is_valid s' = 0 \/ data_is_valid s' = 1)
  | BufferOverrun s' _ => array_index s' = capacity /\ enable_data_capture s' = 1
  end.
Proof.
  induction cycles as [|next cycles IH]; intros bytes s Hwf.
  - simpl run. rewrite andThen_Normal_ret. now apply cycle_well_formed.
  - change (run s (bytes :: next :: cycles))
      with (cycle s bytes >>> (fun s' => run s' (next :: cycles))).
    pose proof (cycle_well_formed bytes s Hwf) as Hc.
    destruct (cycle s bytes) as [s1 evs1|s1 evs1]; [|exact Hc].
    destruct Hc as [Hwf1 _]. specialize (IH next s1 Hwf1).
    rewrite andThen_Normal. now destruct (run s1 (next :: cycles)).
Qed.

(** X12. From the state in which the loop is entered, whatever the
    uninitialised locals hold, every run of at least one cycle that has
    not left the array ends with a 40-cell array, both flags 0 or 1, and,
    while a capture is under way, an index between 0 and 40.  And if the
    run leaves the array, it does so by a store at index 40 exactly, one
    past the last cell, with the capture on. *)
Theorem loop_invariant valid index arr bytes cycles :
  length arr = Z.to_nat capacity ->
  match run (initial valid index arr) (bytes :: cycles) with
  | Normal s' _ =>
      length (data_capture_array s') = Z.to_nat capacity
      /\ (enable_data_capture s' = 0 \/ enable_data_capture s' = 1)
      /\ (data_is_valid s' = 0 \/ data_is_valid s' = 1)
      /\ (enable_data_capture s' <> 0 -> 0 <= array_index s' <= capacity)
  | BufferOverrun s' _ => array_index s' = capacity /\ enable_data_capture s' = 1
  end.
Proof.
  intros Hlen.
  assert (Hwf : well_formed (initial valid index arr)).
  { unfold well_formed, initial. simpl. repeat split; try done.
    - now left.
    - right. right. now split. }
  pose proof (run_well_formed cycles bytes _ Hwf) as H.
  destruct (run (initial valid index arr) (bytes :: cycles)); [|exact H].
  destruct H as [(H1 & H2 & H3 & _) H4].
  split; [exact H1|]. split; [exact H2|]. split; [exact H4 | exact H3].
Qed.

Lemma loop_invariant_witness :
  match run (initial 7 99 blank) (two_sentences :: [bytes_of "$GPGLL,47"]) with
  | Normal s' _ =>
      length (data_capture_array s') = Z.to_nat capacity
      /\ (enable_data_capture s' = 0 \/ enable_data_capture s' = 1)
      /\ (data_is_valid s' = 0 \/ data_is_valid s' = 1)
      /\ (enable_data_capture s' <> 0 -> 0 <= array_index s' <= capacity)
  | BufferOverrun s' _ => array_index s' = capacity /\ enable_data_capture s' = 1
  end.
Proof.
  apply (loop_invariant 7 99 blank two_sentences [bytes_of "$GPGLL,47"]).
  reflexivity.
Defined.

(** ** When the array is safe *)

Lemma on_char_blocks_fit cur s c rest :
  index_within cur s -> blocks_fit cur (c :: rest) = true ->
  exists s' evs cur',
    on_char s c = Normal s' evs
    /\ index_within cur' s' /\ blocks_fit cur' rest = true.
Proof.
  intros Hix Hfit. simpl in Hfit. unfold on_char.
  destruct (c =? ch_L) eqn:HL.
  { simpl in Hfit. exists (start_capture s), [], 0.
    split; [reflexivity|]. split; [|assumption].
    unfold index_within. simpl. lia. }
  destruct (enable_data_capture s =? 0) eqn:Hoff.
  { apply Z.eqb_eq in Hoff.
    destruct (c =? ch_CR); simpl in Hfit;
      [|apply andb_true_iff in Hfit as [_ Hfit]];
      eexists s, [], _; (split; [reflexivity|]); (split; [|eassumption]);
      unfold index_within; intros Hon; contradiction. }
  apply Z.eqb_neq in Hoff. specialize (Hix Hoff).
  destruct (c =? ch_CR) eqn:HCR; simpl in Hfit.
  { destruct (data_is_valid (set_capture 0 s) =? 0);
      eexists _, _, 0; (split; [reflexivity|]); (split; [|assumption]);
      unfold index_within; simpl; intros Hon; contradiction. }
  apply andb_true_iff in Hfit as [Hcur%Z.ltb_lt Hfit].
  assert (Hin : (0 <=? array_index s) && (array_index s <? capacity) = true).
  { apply andb_true_iff. split; [apply Z.leb_le | apply Z.ltb_lt]; lia. }
  unfold store.
  destruct (c =? ch_V); simpl; rewrite Hin;
    eexists _, _, (cur + 1); (split; [reflexivity|]); (split; [|assumption]);
    unfold index_within; simpl; intros _; lia.
Qed.

Lemma feed_blocks_fit bytes : forall cur s rest,
  index_within cur s -> blocks_fit cur (bytes ++ rest) = true ->
  exists s' evs cur',
    feed s bytes = Normal s' evs
    /\ index_within cur' s' /\ blocks_fit cur' rest = true.
Proof.
  induction bytes as [|c bytes IH]; intros cur s rest Hix Hfit.
  - now exists s, [], cur.
  - destruct (on_char_blocks_fit cur s c (bytes ++ rest) Hix Hfit)
      as (s1 & evs1 & cur1 & Hc & Hix1 & Hfit1).
    destruct (IH cur1 s1 rest Hix1 Hfit1) as (s2 & evs2 & cur2 & Hf & Hix2 & Hfit2).
    exists s2, (evs1 ++ evs2), cur2. split; [|now split].
    simpl feed. now rewrite Hc, andThen_Normal, Hf.
Qed.

Lemma index_within_no_data cur s : index_within cur s -> index_within cur (no_data s).
Proof. unfold index_within, no_data. now destruct (both_zero _ _). Qed.

Lemma run_blocks_fit cycles : forall cur s,
  index_within cur s -> blocks_fit cur (concat cycles) = true ->
  exists s' evs, run s cycles = Normal s' evs.
Proof.
  induction cycles as [|bytes cycles IH]; intros cur s Hix Hfit.
  - now exists s, [].
  - simpl in Hfit.
    destruct (feed_blocks_fit bytes cur s (concat cycles) Hix Hfit)
      as (s1 & evs1 & cur1 & Hf & Hix1 & Hfit1).
    destruct (IH cur1 (no_data s1) (index_within_no_data _ _ Hix1) Hfit1)
      as (s2 & evs2 & Hrun).
    exists s2, ((evs1 ++ publish (no_data s1)) ++ evs2).
    simpl run. unfold cycle. rewrite Hf. simpl. now rewrite Hrun.
Qed.

(** X13. If the characters that arrive, over all cycles together, never
    come more than 40 in a row without an ['L'] or a carriage return, the
    loop never stores outside the array: every run from its initial state
    ends normally. *)
Theorem short_blocks_never_overrun valid index arr cycles :
  blocks_fit 0 (concat cycles) = true ->
  exists s' evs, run (initial valid index arr) cycles = Normal s' evs.
Proof.
  intros Hfit. apply (run_blocks_fit cycles 0); [|assumption].
  unfold index_within, initial. simpl. intros Hon. contradiction.
Qed.

Lemma short_blocks_never_overrun_witness :
  exists s' evs,
    run (initial 7 99 blank) [bytes_of "$GPGLL,4730.0"; []; two_sentences]
    = Normal s' evs.
Proof. apply short_blocks_never_overrun. vm_compute. reflexivity. Defined.
